(** * SinoLink Global: view state machine and model gateway

    A shallow embedding of the language-learning client: the gateway
    service ([geminiService], six operations over the generative-model
    backend) and the view state of [App] with its event handlers.

    Conventions of the embedding.
    - An optional property of a JS object ([culturalNote?], a property
      absent from a JSON payload) is an [option]; a JS truthiness test on
      it is [truthy].
    - A promise is represented by its settled outcome, [Settled].
    - [response.text] is represented by the outcome of [JSON.parse] on
      it, read at the shape declared in the request's [responseSchema]:
      [None] when the text is undefined or empty (so that the source's
      [||] fallback applies), [Some Malformed] when parsing throws.
    - An [async] handler is split at its [await]: the part that runs
      synchronously on invocation, and the part that runs when the
      promise of the gateway call settles. *)

From Stdlib Require Import Ascii.
From stdpp Require Import gmap strings list.

Open Scope string_scope.
Open Scope Z_scope.

(** ** src/types.ts *)

(** [Word]; the seeded vocabulary entries of [App] carry one more
    property, [isSelected], which the interface does not declare. *)
Record Word := mkWord {
  word : string;
  pinyin : string;
  meaning : string;
  culturalNote : option string;
  proficiency : Z;
  category : option string;
  isFavorite : option bool;
  isSelected : option bool
}.

(** [PageType]; the page identifiers live in their own name space, since
    [vocabulary] and [dialogue] also name a state cell and a property. *)
Module Page.
Inductive t :=
  | recommendation | etymology | vocabulary | dialogue | translation | recognition.
End Page.
Abbreviation PageType := Page.t.

Global Instance PageType_eq_dec : EqDecision PageType.
Proof. solve_decision. Defined.

(** One exchange of the free chat, [{role, text}]. *)
Record ChatTurn := { role : string; turnText : string }.

(** ** JavaScript values *)

Inductive JsError :=
  | BackendError   (* the request to the model service failed *)
  | SyntaxError    (* JSON.parse on text that is not JSON *)
  | TypeError.     (* property access on undefined, iteration of a non-iterable *)

Inductive Settled (A : Type) :=
  | Fulfilled (a : A)
  | Rejected (e : JsError).
Arguments Fulfilled {A} a.
Arguments Rejected {A} e.

Definition is_fulfilled {A} (r : Settled A) : bool :=
  match r with Fulfilled _ => true | Rejected _ => false end.

(** Truthiness of [string | undefined]: undefined and the empty string
    are falsy. *)
Definition truthy (s : option string) : bool :=
  match s with
  | Some s => negb (String.eqb s "")
  | None => false
  end.

(** Truthiness of [boolean | undefined]. *)
Definition truthyb (b : option bool) : bool :=
  match b with Some true => true | _ => false end.

(** A value interpolated in a template literal. *)
Definition js_str (s : option string) : string :=
  match s with Some s => s | None => "undefined" end.

(** ** services/geminiService.ts *)

Module Gateway.

(** *** Responses of the backend *)

Inductive Body (A : Type) :=
  | Malformed
  | Parses (a : A).
Arguments Malformed {A}.
Arguments Parses {A} a.

Record InlineData := { data : string }.
Record Part := { inlineData : option InlineData; partText : option string }.
Record Content := { parts : option (list Part) }.
Record Candidate := { content : option Content }.
Record MediaResponse := { candidates : option (list Candidate) }.

(** Payloads, at the shape of the [responseSchema] of each request.  Only
    the recommendation schema has a [required] list. *)
Record RawComponent := { rawChar : option string; rawMeaning : option string }.
Record EtymologyPayload := {
  rawComponents : option (list RawComponent);
  rawCulturalContext : option string
}.
Record RawLine := {
  rawSpeaker : option string;
  rawText : option string;
  rawPinyin : option string;
  rawTranslation : option string;
  rawBlankWord : option string;
  rawHintImagePrompt : option string
}.
Record ReviewPayload := {
  rawScenario : option string;
  rawDialogue : option (list RawLine)
}.

(** What the gateway hands to the view: the payload, with the image
    attached to an item when its generation succeeded. *)
Record Component := {
  char : option string;
  compMeaning : option string;
  imageUrl : option string
}.
Record EtymologyData := {
  components : option (list Component);
  culturalContext : option string
}.
Record Line := {
  speaker : option string;
  text : option string;
  linePinyin : option string;
  lineTranslation : option string;
  blankWord : option string;
  hintImagePrompt : option string;
  hintImageUrl : option string
}.
Record ReviewData := {
  scenario : option string;
  dialogue : list Line
}.

(** The behaviour of the backend during one gateway operation: its reply
    to the primary request of each kind, and its reply to the n-th
    image-generation request (counted from 0 within the operation). *)
Record Backend := {
  recommendReply : Settled (option (Body (list Word)));
  etymologyReply : Settled (option (Body EtymologyPayload));
  reviewReply : Settled (option (Body ReviewPayload));
  imageReply : nat → Settled MediaResponse;
  speechReply : Settled MediaResponse;
  chatReply : Settled (option string);
  analyzeReply : Settled (option string)
}.

(** *** Requests *)

(** The [contents] of a request: one constructor per prompt template of
    the source, applied to the values interpolated in it. *)
Inductive Contents :=
  | RecommendPrompt (nativeLanguage level : string)
  | EtymologyPrompt (w : string)
  | RadicalImagePrompt (c m : string)
  | ReviewPrompt (wordList : string)
  | HintImagePrompt (prompt : string)
  | SpeechPrompt (t : string)
  | ChatContents (turns : list (string * string))
  | AnalyzePrompt (base64Image : option string).

Record Request := { model : string; contents : Contents }.

Inductive Effect :=
  | Sent (r : Request)
  | ConsoleError (msg : string).

(** *** Helpers shared by the operations *)

(** [JSON.parse(response.text || fallback)]. *)
Definition parse_or {A} (fallback : A) (t : option (Body A)) : Settled A :=
  match t with
  | None => Fulfilled fallback
  | Some Malformed => Rejected SyntaxError
  | Some (Parses a) => Fulfilled a
  end.

(** The loop [for (const part of parts) if (part.inlineData) url = ...]:
    the last part with inline data wins. *)
Fixpoint lastInline (acc : option string) (ps : list Part) : option string :=
  match ps with
  | [] => acc
  | p :: ps =>
      match inlineData p with
      | Some d => lastInline (Some ("data:image/png;base64," ++ data d)) ps
      | None => lastInline acc ps
      end
  end.

(** The body of the [try] after the image request:
    [imgResponse.candidates[0].content.parts], then the loop.  Every
    missing link throws a [TypeError]. *)
Definition inlineImage (r : Settled MediaResponse) : Settled (option string) :=
  match r with
  | Rejected e => Rejected e
  | Fulfilled resp =>
      match candidates resp with
      | Some (c :: _) =>
          match content c with
          | Some ct =>
              match parts ct with
              | Some ps => Fulfilled (lastInline None ps)
              | None => Rejected TypeError
              end
          | None => Rejected TypeError
          end
      | _ => Rejected TypeError
      end
  end.

Definition imageModel : string := "gemini-2.5-flash-image".
Definition textModel : string := "gemini-3-flash-preview".

(** *** getVocabularyRecommendations *)

Definition getVocabularyRecommendations (b : Backend) (nativeLanguage level : string)
  : Settled (list Word) * list Effect :=
  let req := {| model := textModel; contents := RecommendPrompt nativeLanguage level |} in
  match recommendReply b with
  | Rejected e => (Rejected e, [Sent req])
  | Fulfilled t => (parse_or [] t, [Sent req])
  end.

(** *** getEtymology *)

Definition radicalRequest (c : RawComponent) : Request :=
  {| model := imageModel;
     contents := RadicalImagePrompt (js_str (rawChar c)) (js_str (rawMeaning c)) |}.

(** One iteration of the loop over [data.components]: the [try] and its
    [catch]. *)
Definition illustrate (r : Settled MediaResponse) (c : RawComponent)
  : Component * list Effect :=
  match inlineImage r with
  | Fulfilled url =>
      ({| char := rawChar c; compMeaning := rawMeaning c; imageUrl := url |},
       [Sent (radicalRequest c)])
  | Rejected _ =>
      ({| char := rawChar c; compMeaning := rawMeaning c; imageUrl := None |},
       [Sent (radicalRequest c); ConsoleError "Failed to generate image for radical"])
  end.

Fixpoint illustrateAll (img : nat → Settled MediaResponse) (n : nat)
    (cs : list RawComponent) : list Component * list Effect :=
  match cs with
  | [] => ([], [])
  | c :: cs =>
      let '(c', e1) := illustrate (img n) c in
      let '(cs', e2) := illustrateAll img (S n) cs in
      (c' :: cs', (e1 ++ e2)%list)
  end.

Definition getEtymology (b : Backend) (w : string)
  : Settled EtymologyData * list Effect :=
  let req := {| model := textModel; contents := EtymologyPrompt w |} in
  match etymologyReply b with
  | Rejected e => (Rejected e, [Sent req])
  | Fulfilled t =>
      match parse_or {| rawComponents := None; rawCulturalContext := None |} t with
      | Rejected e => (Rejected e, [Sent req])
      | Fulfilled d =>
          match rawComponents d with
          | Some cs =>
              let '(cs', eff) := illustrateAll (imageReply b) 0 cs in
              (Fulfilled {| components := Some cs';
                            culturalContext := rawCulturalContext d |},
               Sent req :: eff)
          | None =>
              (Fulfilled {| components := None;
                            culturalContext := rawCulturalContext d |},
               [Sent req])
          end
      end
  end.

(** *** getReviewDialogue *)

Definition plainLine (l : RawLine) (url : option string) : Line :=
  {| speaker := rawSpeaker l; text := rawText l; linePinyin := rawPinyin l;
     lineTranslation := rawTranslation l; blankWord := rawBlankWord l;
     hintImagePrompt := rawHintImagePrompt l; hintImageUrl := url |}.

Definition hintRequest (l : RawLine) : Request :=
  {| model := imageModel; contents := HintImagePrompt (js_str (rawHintImagePrompt l)) |}.

Definition wantsHint (l : RawLine) : bool :=
  truthy (rawBlankWord l) && truthy (rawHintImagePrompt l).

(** The loop over [data.dialogue]; [n] counts the image requests issued
    so far. *)
Fixpoint hintAll (img : nat → Settled MediaResponse) (n : nat)
    (ls : list RawLine) : list Line * list Effect :=
  match ls with
  | [] => ([], [])
  | l :: ls =>
      if wantsHint l then
        let '(ls', e2) := hintAll img (S n) ls in
        match inlineImage (img n) with
        | Fulfilled url => (plainLine l url :: ls', Sent (hintRequest l) :: e2)
        | Rejected _ =>
            (plainLine l None :: ls',
             Sent (hintRequest l) :: ConsoleError "Failed to generate hint image" :: e2)
        end
      else
        let '(ls', e2) := hintAll img n ls in
        (plainLine l None :: ls', e2)
  end.

Definition wordList (selectedWords : list Word) : string :=
  String.concat ", " (map word selectedWords).

Definition getReviewDialogue (b : Backend) (selectedWords : list Word)
  : Settled ReviewData * list Effect :=
  let req := {| model := textModel; contents := ReviewPrompt (wordList selectedWords) |} in
  match reviewReply b with
  | Rejected e => (Rejected e, [Sent req])
  | Fulfilled t =>
      match parse_or {| rawScenario := None; rawDialogue := None |} t with
      | Rejected e => (Rejected e, [Sent req])
      | Fulfilled d =>
          match rawDialogue d with
          | None => (Rejected TypeError, [Sent req])  (* for..of over undefined *)
          | Some ls =>
              let '(ls', eff) := hintAll (imageReply b) 0 ls in
              (Fulfilled {| scenario := rawScenario d; dialogue := ls' |},
               Sent req :: eff)
          end
      end
  end.

(** *** generateSpeech, getDialogueResponse, analyzeImage *)

(** [response.candidates?.[0]?.content?.parts?.[0]?.inlineData?.data]. *)
Definition firstInlineData (resp : MediaResponse) : option string :=
  cs ← candidates resp;
  c ← head cs;
  ct ← content c;
  ps ← parts ct;
  p ← head ps;
  d ← inlineData p;
  Some (data d).

Definition generateSpeech (b : Backend) (t : option string)
  : Settled (option string) * list Effect :=
  let req := {| model := "gemini-2.5-flash-preview-tts";
                contents := SpeechPrompt (js_str t) |} in
  match speechReply b with
  | Rejected e => (Rejected e, [Sent req])
  | Fulfilled resp => (Fulfilled (firstInlineData resp), [Sent req])
  end.

Definition chatRole (r : string) : string :=
  if String.eqb r "user" then "user" else "model".

Definition getDialogueResponse (b : Backend) (history : list ChatTurn)
    (userInput : string) : Settled (option string) * list Effect :=
  let turns :=
    (map (λ h, (chatRole (role h), turnText h)) history ++ [("user", userInput)])%list in
  let req := {| model := textModel; contents := ChatContents turns |} in
  (chatReply b, [Sent req]).

Definition analyzeImage (b : Backend) (base64Image : option string)
  : Settled (option string) * list Effect :=
  let req := {| model := imageModel; contents := AnalyzePrompt base64Image |} in
  (analyzeReply b, [Sent req]).

End Gateway.

(** ** App.tsx: the view state *)

Module App.
Import Gateway.

(** The [useState] cells of [App]. *)
Record AppState := {
  activePage : PageType;
  nativeLang : string;
  level : string;
  loading : bool;
  recommendedWords : list Word;
  currentEtymology : option (string * EtymologyData);
  vocabulary : list Word;
  reviewData : option ReviewData;
  reviewAnswers : gmap nat string;
  reviewStep : Z;
  chatHistory : list ChatTurn;
  imageResult : option string;
  capturedImage : option string
}.

(** The setters returned by [useState]. *)
Definition setActivePage (v : PageType) (st : AppState) : AppState :=
  {| activePage := v;
     nativeLang := nativeLang st;
     level := level st;
     loading := loading st;
     recommendedWords := recommendedWords st;
     currentEtymology := currentEtymology st;
     vocabulary := vocabulary st;
     reviewData := reviewData st;
     reviewAnswers := reviewAnswers st;
     reviewStep := reviewStep st;
     chatHistory := chatHistory st;
     imageResult := imageResult st;
     capturedImage := capturedImage st |}.

Definition setNativeLang (v : string) (st : AppState) : AppState :=
  {| activePage := activePage st;
     nativeLang := v;
     level := level st;
     loading := loading st;
     recommendedWords := recommendedWords st;
     currentEtymology := currentEtymology st;
     vocabulary := vocabulary st;
     reviewData := reviewData st;
     reviewAnswers := reviewAnswers st;
     reviewStep := reviewStep st;
     chatHistory := chatHistory st;
     imageResult := imageResult st;
     capturedImage := capturedImage st |}.

Definition setLevel (v : string) (st : AppState) : AppState :=
  {| activePage := activePage st;
     nativeLang := nativeLang st;
     level := v;
     loading := loading st;
     recommendedWords := recommendedWords st;
     currentEtymology := currentEtymology st;
     vocabulary := vocabulary st;
     reviewData := reviewData st;
     reviewAnswers := reviewAnswers st;
     reviewStep := reviewStep st;
     chatHistory := chatHistory st;
     imageResult := imageResult st;
     capturedImage := capturedImage st |}.

Definition setLoading (v : bool) (st : AppState) : AppState :=
  {| activePage := activePage st;
     nativeLang := nativeLang st;
     level := level st;
     loading := v;
     recommendedWords := recommendedWords st;
     currentEtymology := currentEtymology st;
     vocabulary := vocabulary st;
     reviewData := reviewData st;
     reviewAnswers := reviewAnswers st;
     reviewStep := reviewStep st;
     chatHistory := chatHistory st;
     imageResult := imageResult st;
     capturedImage := capturedImage st |}.

Definition setRecommendedWords (v : list Word) (st : AppState) : AppState :=
  {| activePage := activePage st;
     nativeLang := nativeLang st;
     level := level st;
     loading := loading st;
     recommendedWords := v;
     currentEtymology := currentEtymology st;
     vocabulary := vocabulary st;
     reviewData := reviewData st;
     reviewAnswers := reviewAnswers st;
     reviewStep := reviewStep st;
     chatHistory := chatHistory st;
     imageResult := imageResult st;
     capturedImage := capturedImage st |}.

Definition setCurrentEtymology (v : option (string * EtymologyData)) (st : AppState) : AppState :=
  {| activePage := activePage st;
     nativeLang := nativeLang st;
     level := level st;
     loading := loading st;
     recommendedWords := recommendedWords st;
     currentEtymology := v;
     vocabulary := vocabulary st;
     reviewData := reviewData st;
     reviewAnswers := reviewAnswers st;
     reviewStep := reviewStep st;
     chatHistory := chatHistory st;
     imageResult := imageResult st;
     capturedImage := capturedImage st |}.

Definition setVocabulary (v : list Word) (st : AppState) : AppState :=
  {| activePage := activePage st;
     nativeLang := nativeLang st;
     level := level st;
     loading := loading st;
     recommendedWords := recommendedWords st;
     currentEtymology := currentEtymology st;
     vocabulary := v;
     reviewData := reviewData st;
     reviewAnswers := reviewAnswers st;
     reviewStep := reviewStep st;
     chatHistory := chatHistory st;
     imageResult := imageResult st;
     capturedImage := capturedImage st |}.

Definition setReviewData (v : option ReviewData) (st : AppState) : AppState :=
  {| activePage := activePage st;
     nativeLang := nativeLang st;
     level := level st;
     loading := loading st;
     recommendedWords := recommendedWords st;
     currentEtymology := currentEtymology st;
     vocabulary := vocabulary st;
     reviewData := v;
     reviewAnswers := reviewAnswers st;
     reviewStep := reviewStep st;
     chatHistory := chatHistory st;
     imageResult := imageResult st;
     capturedImage := capturedImage st |}.

Definition setReviewAnswers (v : gmap nat string) (st : AppState) : AppState :=
  {| activePage := activePage st;
     nativeLang := nativeLang st;
     level := level st;
     loading := loading st;
     recommendedWords := recommendedWords st;
     currentEtymology := currentEtymology st;
     vocabulary := vocabulary st;
     reviewData := reviewData st;
     reviewAnswers := v;
     reviewStep := reviewStep st;
     chatHistory := chatHistory st;
     imageResult := imageResult st;
     capturedImage := capturedImage st |}.

Definition setReviewStep (v : Z) (st : AppState) : AppState :=
  {| activePage := activePage st;
     nativeLang := nativeLang st;
     level := level st;
     loading := loading st;
     recommendedWords := recommendedWords st;
     currentEtymology := currentEtymology st;
     vocabulary := vocabulary st;
     reviewData := reviewData st;
     reviewAnswers := reviewAnswers st;
     reviewStep := v;
     chatHistory := chatHistory st;
     imageResult := imageResult st;
     capturedImage := capturedImage st |}.

Definition setChatHistory (v : list ChatTurn) (st : AppState) : AppState :=
  {| activePage := activePage st;
     nativeLang := nativeLang st;
     level := level st;
     loading := loading st;
     recommendedWords := recommendedWords st;
     currentEtymology := currentEtymology st;
     vocabulary := vocabulary st;
     reviewData := reviewData st;
     reviewAnswers := reviewAnswers st;
     reviewStep := reviewStep st;
     chatHistory := v;
     imageResult := imageResult st;
     capturedImage := capturedImage st |}.

Definition setImageResult (v : option string) (st : AppState) : AppState :=
  {| activePage := activePage st;
     nativeLang := nativeLang st;
     level := level st;
     loading := loading st;
     recommendedWords := recommendedWords st;
     currentEtymology := currentEtymology st;
     vocabulary := vocabulary st;
     reviewData := reviewData st;
     reviewAnswers := reviewAnswers st;
     reviewStep := reviewStep st;
     chatHistory := chatHistory st;
     imageResult := v;
     capturedImage := capturedImage st |}.

Definition setCapturedImage (v : option string) (st : AppState) : AppState :=
  {| activePage := activePage st;
     nativeLang := nativeLang st;
     level := level st;
     loading := loading st;
     recommendedWords := recommendedWords st;
     currentEtymology := currentEtymology st;
     vocabulary := vocabulary st;
     reviewData := reviewData st;
     reviewAnswers := reviewAnswers st;
     reviewStep := reviewStep st;
     chatHistory := chatHistory st;
     imageResult := imageResult st;
     capturedImage := v |}.

(** The [useState] initial values. *)
Definition seedVocabulary : list Word :=
  [ mkWord "发票" "Fā piào" "Receipt / Invoice" None 45 (Some "Business") (Some true) (Some true);
    mkWord "登机牌" "Dēng jī pái" "Boarding Pass" None 80 (Some "Travel") (Some false) (Some true);
    mkWord "矛盾" "Máo dùn" "Contradiction" None 65 (Some "General") (Some false) (Some true);
    mkWord "内卷" "Nèi juǎn" "Involution" None 20 (Some "Culture") (Some true) (Some true);
    mkWord "咖啡" "Kā fēi" "Coffee" None 95 (Some "Daily") (Some false) (Some true) ].

Definition initialState : AppState :=
  {| activePage := Page.recommendation;
     nativeLang := "English";
     level := "HSK 3";
     loading := false;
     recommendedWords := [];
     currentEtymology := None;
     vocabulary := seedVocabulary;
     reviewData := None;
     reviewAnswers := ∅;
     reviewStep := 0;
     chatHistory := [];
     imageResult := None;
     capturedImage := None |}.

(** *** Handlers

    An [async] handler suspended at its [await]: the gateway call it
    issued, with the arguments of the call and the values its
    continuation closes over. *)
Inductive Pending :=
  | AwaitRecommendations (lang lvl : string)
  | AwaitEtymology (w : string)
  | AwaitReviewDialogue (selected : list Word)
  | AwaitSpeech (t : option string)
  | AwaitDialogueResponse (history : list ChatTurn) (val : string)
  | AwaitAnalyzeImage (base64 : option string).

(** A handler's part up to the [await] gives the new state and the call
    it suspended on, if any.  Its part after the [await] gives the new
    state and how the handler's own promise settles: [Rejected] is an
    exception that left the handler. *)

Definition fetchRecommendations (st : AppState) : AppState * option Pending :=
  (setLoading true st, Some (AwaitRecommendations (nativeLang st) (level st))).

Definition fetchRecommendations_settled (r : Settled (list Word)) (st : AppState)
  : AppState * Settled unit :=
  match r with
  | Fulfilled words => (setLoading false (setRecommendedWords words st), Fulfilled tt)
  | Rejected _ => (setLoading false st, Fulfilled tt)
  end.

Definition fetchEtymology (w : string) (st : AppState) : AppState * option Pending :=
  (setLoading true st, Some (AwaitEtymology w)).

Definition fetchEtymology_settled (w : string) (r : Settled EtymologyData)
    (st : AppState) : AppState * Settled unit :=
  match r with
  | Fulfilled d =>
      (setLoading false (setActivePage Page.etymology (setCurrentEtymology (Some (w, d)) st)),
       Fulfilled tt)
  | Rejected _ => (setLoading false st, Fulfilled tt)
  end.

Definition selectedOf (vocab : list Word) : list Word :=
  List.filter (λ w, truthyb (isSelected w)) vocab.

Definition startTargetedReview (st : AppState) : AppState * option Pending :=
  let selected := selectedOf (vocabulary st) in
  if (length selected =? 0)%nat then (st, None)
  else (setLoading true st, Some (AwaitReviewDialogue selected)).

Definition startTargetedReview_settled (r : Settled ReviewData) (st : AppState)
  : AppState * Settled unit :=
  match r with
  | Fulfilled d =>
      (setLoading false
         (setActivePage Page.dialogue
            (setReviewStep 0 (setReviewAnswers ∅ (setReviewData (Some d) st)))),
       Fulfilled tt)
  | Rejected _ => (setLoading false st, Fulfilled tt)
  end.

Definition playTTS (t : option string) (st : AppState) : AppState * option Pending :=
  (st, Some (AwaitSpeech t)).

(** Playing the audio and [console.error] touch no state cell. *)
Definition playTTS_settled (r : Settled (option string)) (st : AppState)
  : AppState * Settled unit :=
  (st, Fulfilled tt).

(** [s.split(sep)] for a one-character separator. *)
Fixpoint splitOn (sep : Ascii.ascii) (s : string) : list string :=
  match s with
  | EmptyString => [EmptyString]
  | String c s' =>
      if Ascii.eqb c sep then EmptyString :: splitOn sep s'
      else match splitOn sep s' with
           | h :: t => String c h :: t
           | [] => [String c EmptyString]
           end
  end.

(** [reader.onloadend] of [handleImageUpload], for a file read as the
    data URL [result]. *)
Definition handleImageUpload (result : string) (st : AppState)
  : AppState * option Pending :=
  let base64 := splitOn ","%char result !! 1%nat in
  (setLoading true (setCapturedImage (Some result) st), Some (AwaitAnalyzeImage base64)).

Definition handleImageUpload_settled (r : Settled (option string)) (st : AppState)
  : AppState * Settled unit :=
  match r with
  | Fulfilled res => (setLoading false (setImageResult res st), Fulfilled tt)
  | Rejected _ => (setLoading false st, Fulfilled tt)
  end.

(** [toggleWordSelection]: the index comes from the rendered list; out of
    range, [newVocab[index]] is undefined and the property access throws. *)
Definition toggleSelected (w : Word) : Word :=
  mkWord (word w) (pinyin w) (meaning w) (culturalNote w) (proficiency w)
         (category w) (isFavorite w) (Some (negb (truthyb (isSelected w)))).

Definition toggleWordSelection (index : nat) (st : AppState) : Settled AppState :=
  match vocabulary st !! index with
  | Some w => Fulfilled (setVocabulary (<[index := toggleSelected w]> (vocabulary st)) st)
  | None => Rejected TypeError
  end.

(** The [onKeyDown] of the free-chat input.  The call receives the
    [chatHistory] of the render, without the turn just appended. *)
Definition chatKeyDown (key value : string) (st : AppState) : AppState * option Pending :=
  if String.eqb key "Enter" && truthy (Some value) then
    (setChatHistory (chatHistory st ++ [{| role := "user"; turnText := value |}])%list st,
     Some (AwaitDialogueResponse (chatHistory st) value))
  else (st, None).

(** No [try] around the [await] here: a rejection leaves the handler. *)
Definition chatKeyDown_settled (r : Settled (option string)) (st : AppState)
  : AppState * Settled unit :=
  match r with
  | Fulfilled response =>
      let reply := if truthy response then js_str response else "" in
      (setChatHistory (chatHistory st ++ [{| role := "ai"; turnText := reply |}])%list st,
       Fulfilled tt)
  | Rejected e => (st, Rejected e)
  end.

(** *** The review exercise *)

(** [l.slice(0, e)]. *)
Definition slice0 {A} (e : Z) (l : list A) : list A :=
  if e <? 0 then take (Z.to_nat (Z.of_nat (length l) + e)) l
  else take (Z.to_nat e) l.

(** The dialogue lines drawn at the current step. *)
Definition shownLines (st : AppState) (d : ReviewData) : list Line :=
  slice0 (reviewStep st + 1) (dialogue d).

(** A line drawn as an exercise: [line.speaker === 'User' && line.blankWord]. *)
Definition isExercise (line : Line) : bool :=
  bool_decide (speaker line = Some "User") && truthy (blankWord line).

(** The [onClick] of the answer button for word [w] under line [i].  The
    guards read [reviewStep] and [reviewData] of the render that drew the
    button ([renderedStep], [d]); the setters update the current state. *)
Definition answerClick (renderedStep : Z) (d : ReviewData) (i : nat) (line : Line)
    (w : Word) (st : AppState) : AppState :=
  let st1 := setReviewAnswers (<[i := word w]> (reviewAnswers st)) st in
  if bool_decide (blankWord line = Some (word w)) then
    if renderedStep <? Z.of_nat (length (dialogue d)) - 1
    then setReviewStep (reviewStep st1 + 1) st1
    else st1
  else st1.

(** A submission: button [k] of the answer row under shown line [i].
    [None] when no such button is drawn. *)
Definition submitAnswer (i k : nat) (st : AppState) : option AppState :=
  d ← reviewData st;
  line ← shownLines st d !! i;
  w ← selectedOf (vocabulary st) !! k;
  if isExercise line then Some (answerClick (reviewStep st) d i line w st) else None.

(** *** The interface as a transition system *)

(** The view state, the gateway calls in flight with their suspended
    handlers, and the rejections that left a handler uncaught. *)
Record Config := {
  app : AppState;
  inflight : list Pending;
  unhandled : list JsError
}.

Inductive Event :=
  | Navigate (p : PageType)         (* an entry of the bottom navigation *)
  | SelectNativeLang (v : string)
  | SelectLevel (v : string)
  | ClickRefresh
  | ClickRecommended (i : nat)
  | ToggleWord (i : nat)
  | ClickStartReview
  | ClickAnswer (i k : nat)
  | ClickExitReview
  | ClickSpeaker (i : nat)
  | ChatKey (key value : string)
  | ClickSampleScene (i : nat)
  | ImageLoaded (result : string)
  | ClickClearImage
  | Settle (n : nat) (b : Backend). (* the n-th call in flight settles *)

Definition invoke (c : Config) (r : AppState * option Pending) : Config :=
  {| app := r.1;
     inflight := (inflight c ++ option_list r.2)%list;
     unhandled := unhandled c |}.

(** The part of a suspended handler that runs when its call settles,
    against the backend behaviour [b] during the call. *)
Definition resume (b : Backend) (p : Pending) (st : AppState) : AppState * Settled unit :=
  match p with
  | AwaitRecommendations lang lvl =>
      fetchRecommendations_settled (getVocabularyRecommendations b lang lvl).1 st
  | AwaitEtymology w => fetchEtymology_settled w (getEtymology b w).1 st
  | AwaitReviewDialogue sel => startTargetedReview_settled (getReviewDialogue b sel).1 st
  | AwaitSpeech t => playTTS_settled (generateSpeech b t).1 st
  | AwaitDialogueResponse h v => chatKeyDown_settled (getDialogueResponse b h v).1 st
  | AwaitAnalyzeImage b64 => handleImageUpload_settled (analyzeImage b b64).1 st
  end.

Definition escaped (r : Settled unit) : list JsError :=
  match r with Fulfilled _ => [] | Rejected e => [e] end.

(** The [useEffect] keyed on [activePage]: it runs after a render in
    which the active page differs from the previous one. *)
Definition pageEffect (prev : PageType) (c : Config) : Config :=
  if bool_decide (activePage (app c) ≠ prev)
     && bool_decide (activePage (app c) = Page.recommendation)
     && (length (recommendedWords (app c)) =? 0)%nat
  then invoke c (fetchRecommendations (app c))
  else c.

Definition onPage (p : PageType) (c : Config) : bool :=
  bool_decide (activePage (app c) = p).

Definition sampleResult (i : nat) : string :=
  if (i =? 0)%nat then "路牌识别结果:
禁止停车 (Jìn zhǐ tíng chē)
No Parking"
  else "菜单识别结果:
宫保鸡丁 (Gōng bǎo jī dīng)
Kung Pao Chicken".

Definition sampleUrl (i : nat) : string :=
  if (i =? 0)%nat
  then "https://images.unsplash.com/photo-1576487190184-4860cc514ce1?q=80&w=300&auto=format&fit=crop"
  else "https://images.unsplash.com/photo-1555396273-367ea4eb4db5?q=80&w=300&auto=format&fit=crop".

(** What an event does when the element it comes from is drawn and
    enabled in the current render; [None] otherwise. *)
Definition handle (c : Config) (ev : Event) : option Config :=
  let st := app c in
  match ev with
  | Navigate p => Some (invoke c (setActivePage p st, None))
  | SelectNativeLang v =>
      if bool_decide (v ∈ ["English"; "German"; "French"; "Japanese"])
      then Some (invoke c (setNativeLang v st, None)) else None
  | SelectLevel v =>
      if bool_decide (v ∈ ["HSK 1"; "HSK 2"; "HSK 3"; "HSK 4"])
      then Some (invoke c (setLevel v st, None)) else None
  | ClickRefresh =>
      if onPage Page.recommendation c then Some (invoke c (fetchRecommendations st)) else None
  | ClickRecommended i =>
      if onPage Page.recommendation c then
        w ← recommendedWords st !! i;
        Some (invoke c (fetchEtymology (word w) st))
      else None
  | ToggleWord i =>
      if onPage Page.vocabulary c then
        match toggleWordSelection i st with
        | Fulfilled st' => Some (invoke c (st', None))
        | Rejected _ => None
        end
      else None
  | ClickStartReview =>
      if onPage Page.vocabulary c
         && negb (loading st || (length (selectedOf (vocabulary st)) =? 0)%nat)
      then Some (invoke c (startTargetedReview st)) else None
  | ClickAnswer i k =>
      if onPage Page.dialogue c then
        st' ← submitAnswer i k st;
        Some (invoke c (st', None))
      else None
  | ClickExitReview =>
      if onPage Page.dialogue c then
        d ← reviewData st;
        if reviewStep st =? Z.of_nat (length (dialogue d)) - 1
        then Some (invoke c (setReviewData None st, None)) else None
      else None
  | ClickSpeaker i =>
      if onPage Page.dialogue c then
        d ← reviewData st;
        line ← shownLines st d !! i;
        if bool_decide (speaker line = Some "Xiao Tong")
        then Some (invoke c (playTTS (text line) st)) else None
      else None
  | ChatKey key value =>
      if onPage Page.dialogue c then
        match reviewData st with
        | None => Some (invoke c (chatKeyDown key value st))
        | Some _ => None
        end
      else None
  | ClickSampleScene i =>
      if onPage Page.recognition c && (i <? 2)%nat then
        Some (invoke c (setImageResult (Some (sampleResult i))
                          (setCapturedImage (Some (sampleUrl i)) st), None))
      else None
  | ImageLoaded result => Some (invoke c (handleImageUpload result st))
  | ClickClearImage =>
      if onPage Page.recognition c && truthy (imageResult st) then
        Some (invoke c (setImageResult None (setCapturedImage None st), None))
      else None
  | Settle n b =>
      p ← inflight c !! n;
      let '(st', out) := resume b p st in
      Some {| app := st';
              inflight := delete n (inflight c);
              unhandled := (unhandled c ++ escaped out)%list |}
  end.

Definition step (c : Config) (ev : Event) : option Config :=
  pageEffect (activePage (app c)) <$> handle c ev.

Fixpoint run (c : Config) (evs : list Event) : option Config :=
  match evs with
  | [] => Some c
  | ev :: evs => c' ← step c ev; run c' evs
  end.

(** The first render, followed by the effect of the mount. *)
Definition initialConfig : Config :=
  invoke {| app := initialState; inflight := []; unhandled := [] |}
         (fetchRecommendations initialState).

Definition reachable (c : Config) : Prop :=
  ∃ evs, run initialConfig evs = Some c.

End App.

(** ** App.tsx: what [renderPage] reads off the state *)

Module Render.
Import Gateway App.

(** [TITLE_TRANSLATIONS]: per native language, the subtitle of each page. *)
Definition englishTitles (p : PageType) : string :=
  match p with
  | Page.recommendation => "Vocabulary Recommendation"
  | Page.etymology => "Etymology Deconstruction"
  | Page.vocabulary => "Smart Vocabulary"
  | Page.dialogue => "Contextual Review"
  | Page.translation => "Translation Annotation"
  | Page.recognition => "Image Recognition"
  end.

Definition germanTitles (p : PageType) : string :=
  match p with
  | Page.recommendation => "Wortschatz-Empfehlung"
  | Page.etymology => "Etymologie-Dekonstruktion"
  | Page.vocabulary => "Intelligenter Wortschatz"
  | Page.dialogue => "Kontextuelle Überprüfung"
  | Page.translation => "Übersetzungs-Annotation"
  | Page.recognition => "Bilderkennung"
  end.

Definition frenchTitles (p : PageType) : string :=
  match p with
  | Page.recommendation => "Recommandation de vocabulaire"
  | Page.etymology => "Déconstruction étymologique"
  | Page.vocabulary => "Vocabulaire intelligent"
  | Page.dialogue => "Révision contextuelle"
  | Page.translation => "Annotation de traduction"
  | Page.recognition => "Reconnaissance d'image"
  end.

Definition japaneseTitles (p : PageType) : string :=
  match p with
  | Page.recommendation => "語彙の推奨"
  | Page.etymology => "語源の解体"
  | Page.vocabulary => "スマート語彙"
  | Page.dialogue => "文脈による復習"
  | Page.translation => "翻訳注釈"
  | Page.recognition => "画像認識"
  end.

Definition TITLE_TRANSLATIONS : gmap string (PageType → string) :=
  list_to_map [("English", englishTitles); ("German", germanTitles);
               ("French", frenchTitles); ("Japanese", japaneseTitles)].

(** [TITLE_TRANSLATIONS[nativeLang]?.[activePage] || '']. *)
Definition pageTitle (st : AppState) : string :=
  match TITLE_TRANSLATIONS !! nativeLang st with
  | Some titles => if truthy (Some (titles (activePage st))) then titles (activePage st) else ""
  | None => ""
  end.

(** The two colours a proficiency score is drawn in. *)
Inductive Tone := Green | Yellow.

(** The recommendation page: [w.proficiency > 50 ? 'text-celadon-green'
    : 'text-yellow-600']. *)
Definition recommendationTone (w : Word) : Tone :=
  if proficiency w >? 50 then Green else Yellow.

(** The vocabulary page: [w.proficiency < 50 ? 'border-yellow-400'
    : 'border-celadon-green']. *)
Definition vocabularyTone (w : Word) : Tone :=
  if proficiency w <? 50 then Yellow else Green.

(** The text drawn in the blank of exercise line [i]:
    [reviewAnswers[i] || '____']. *)
Definition blankText (st : AppState) (i : nat) : string :=
  if truthy (reviewAnswers st !! i) then js_str (reviewAnswers st !! i) else "____".

(** Whether the answer button of word [w] under line [i] is highlighted:
    [reviewAnswers[i] === w.word]. *)
Definition highlighted (st : AppState) (i : nat) (w : Word) : bool :=
  bool_decide (reviewAnswers st !! i = Some (word w)).

(** Whether the completion banner is drawn:
    [reviewStep === reviewData.dialogue.length - 1]. *)
Definition completed (st : AppState) (d : ReviewData) : bool :=
  reviewStep st =? Z.of_nat (length (dialogue d)) - 1.

End Render.

(** ** Notions used in the statements *)

Module Spec.
Import Gateway App.

(** A proficiency score as the specification wants it. *)
Definition inRange (w : Word) : Prop := 0 ≤ proficiency w ≤ 100.

(** The payload from which [getVocabularyRecommendations] builds its
    result: the parsed text, or the fallback. *)
Definition recommendedPayload (b : Backend) : list Word :=
  match recommendReply b with
  | Fulfilled (Some (Parses ws)) => ws
  | _ => []
  end.

(** The parsed payload of the primary request of an etymology fetch and
    of a review-dialogue fetch, when that request succeeds. *)
Definition primaryEtymology (b : Backend) : Settled EtymologyPayload :=
  match etymologyReply b with
  | Rejected e => Rejected e
  | Fulfilled t => parse_or {| rawComponents := None; rawCulturalContext := None |} t
  end.

Definition primaryReview (b : Backend) : Settled ReviewPayload :=
  match reviewReply b with
  | Rejected e => Rejected e
  | Fulfilled t => parse_or {| rawScenario := None; rawDialogue := None |} t
  end.

(** The image attached to an item from the reply to its image request:
    none when the request fails or carries no inline data. *)
Definition imageOf (r : Settled MediaResponse) : option string :=
  match inlineImage r with
  | Fulfilled url => url
  | Rejected _ => None
  end.

(** The number of image requests [getReviewDialogue] has issued when its
    loop reaches line [k]. *)
Definition hintsBefore (k : nat) (ls : list RawLine) : nat :=
  length (List.filter wantsHint (take k ls)).

(** The handlers that drive the loading flag. *)
Definition usesLoading (p : Pending) : bool :=
  match p with
  | AwaitRecommendations _ _ | AwaitEtymology _
  | AwaitReviewDialogue _ | AwaitAnalyzeImage _ => true
  | AwaitSpeech _ | AwaitDialogueResponse _ _ => false
  end.

(** Whether the gateway call a handler waits for is fulfilled under the
    backend behaviour [b]. *)
Definition succeeds (b : Backend) (p : Pending) : bool :=
  match p with
  | AwaitRecommendations lang lvl => is_fulfilled (getVocabularyRecommendations b lang lvl).1
  | AwaitEtymology w => is_fulfilled (getEtymology b w).1
  | AwaitReviewDialogue sel => is_fulfilled (getReviewDialogue b sel).1
  | AwaitSpeech t => is_fulfilled (generateSpeech b t).1
  | AwaitDialogueResponse h v => is_fulfilled (getDialogueResponse b h v).1
  | AwaitAnalyzeImage b64 => is_fulfilled (analyzeImage b b64).1
  end.

(** The calls an event put in flight. *)
Definition issued (c c' : Config) : list Pending :=
  drop (length (inflight c)) (inflight c').

Definition isSettle (ev : Event) : bool :=
  match ev with Settle _ _ => true | _ => false end.

Definition isSubmission (ev : Event) : bool :=
  match ev with ClickAnswer _ _ => true | _ => false end.

(** The last index of a dialogue, [reviewData.dialogue.length - 1]. *)
Definition lastIndex (d : ReviewData) : Z := Z.of_nat (length (dialogue d)) - 1.

(** The step index is not negative, and within the dialogue of the active
    review when that dialogue has a line. *)
Definition stepInRange (st : AppState) : Prop :=
  0 ≤ reviewStep st
  ∧ ∀ d, reviewData st = Some d → dialogue d ≠ [] → reviewStep st ≤ lastIndex d.

(** The requests among the effects of a gateway operation, in the order
    they were sent, and the number of errors it logged. *)
Definition sentRequests (log : list Effect) : list Request :=
  omap (λ e, match e with Sent r => Some r | ConsoleError _ => None end) log.

Definition loggedErrors (log : list Effect) : nat :=
  length (List.filter (λ e, match e with ConsoleError _ => true | Sent _ => false end) log).

(** The image replies that fail among the first [n] of an operation. *)
Definition failedImages (img : nat → Settled MediaResponse) (n : nat) : nat :=
  length (List.filter (λ k, negb (is_fulfilled (inlineImage (img k)))) (seq 0 n)).

(** Two vocabulary entries that differ at most in their selection flag. *)
Definition sameEntry (w w' : Word) : Prop :=
  word w = word w' ∧ pinyin w = pinyin w' ∧ meaning w = meaning w'
  ∧ culturalNote w = culturalNote w' ∧ proficiency w = proficiency w'
  ∧ category w = category w' ∧ isFavorite w = isFavorite w'.

(** The languages of the header's selector. *)
Definition languages : list string := ["English"; "German"; "French"; "Japanese"].

(** The levels of the header's selector. *)
Definition levels : list string := ["HSK 1"; "HSK 2"; "HSK 3"; "HSK 4"].

(** A call for recommendations names a language and a level of the
    selectors. *)
Definition fromSelectors (p : Pending) : Prop :=
  match p with
  | AwaitRecommendations lang lvl => lang ∈ languages ∧ lvl ∈ levels
  | _ => True
  end.

(** An event that delivers no new review dialogue. *)
Definition deliversNoReview (ev : Event) : bool :=
  match ev with
  | Settle _ b => negb (is_fulfilled (primaryReview b))
  | _ => true
  end.

(** Whether a character occurs in a string. *)
Fixpoint occurs (ch : Ascii.ascii) (s : string) : bool :=
  match s with
  | EmptyString => false
  | String c s' => Ascii.eqb c ch || occurs ch s'
  end.

(** Two states with the same review: data, answers and step index. *)
Definition sameReview (st st' : AppState) : Prop :=
  reviewData st' = reviewData st
  ∧ reviewAnswers st' = reviewAnswers st
  ∧ reviewStep st' = reviewStep st.

(** Case analysis on an enabled event: one goal per way the handler of
    the event can run, with the new configuration in place. *)
Ltac handle_cases H :=
  match type of H with
  | handle ?c ?ev = Some _ =>
      destruct ev; simpl in H;
      repeat match type of H with
        | context [if ?b then _ else _] => destruct b eqn:?; simpl in H
        | context [mbind _ ?o] => destruct o eqn:?; simpl in H
        | context [match ?o with _ => _ end] => destruct o eqn:?; simpl in H
        end;
      try discriminate H; try (injection H as <-)
  end.

End Spec.

(** ** Concrete sessions *)

Module Scenario.
Import Gateway App.

(** A backend that is unreachable. *)
Definition offline : Backend :=
  {| recommendReply := Rejected BackendError;
     etymologyReply := Rejected BackendError;
     reviewReply := Rejected BackendError;
     imageReply := λ _, Rejected BackendError;
     speechReply := Rejected BackendError;
     chatReply := Rejected BackendError;
     analyzeReply := Rejected BackendError |}.

Definition hao : Word :=
  mkWord "好" "hǎo" "good" None 150 None None None.

(** A recommendation reply that follows the response schema and carries
    a proficiency of 150. *)
Definition overRange : Backend :=
  {| recommendReply := Fulfilled (Some (Parses [hao]));
     etymologyReply := Rejected BackendError;
     reviewReply := Rejected BackendError;
     imageReply := λ _, Rejected BackendError;
     speechReply := Rejected BackendError;
     chatReply := Rejected BackendError;
     analyzeReply := Rejected BackendError |}.

Definition orderLine : RawLine :=
  {| rawSpeaker := Some "User"; rawText := Some "我要一杯____";
     rawPinyin := None; rawTranslation := None;
     rawBlankWord := Some "咖啡"; rawHintImagePrompt := Some "a cup of coffee" |}.

Definition greetLine : RawLine :=
  {| rawSpeaker := Some "Xiao Tong"; rawText := Some "你好，想喝什么？";
     rawPinyin := Some "Nǐ hǎo"; rawTranslation := Some "Hello, what would you like?";
     rawBlankWord := None; rawHintImagePrompt := None |}.

Definition payLine : RawLine :=
  {| rawSpeaker := Some "User"; rawText := Some "请给我____";
     rawPinyin := None; rawTranslation := None;
     rawBlankWord := Some "发票"; rawHintImagePrompt := Some "a receipt" |}.

Definition okImage : MediaResponse :=
  {| candidates := Some [ {| content := Some {| parts := Some
       [ {| inlineData := Some {| data := "iVBOR" |}; partText := None |} ] |} |} ] |}.

(** The backend answers every primary request; every image request but
    the second fails.  Recommendations come back empty. *)
Definition cafe (ls : list RawLine) : Backend :=
  {| recommendReply := Fulfilled None;
     etymologyReply := Fulfilled (Some (Parses
       {| rawComponents := Some [ {| rawChar := Some "女"; rawMeaning := Some "woman" |};
                                  {| rawChar := Some "子"; rawMeaning := Some "child" |} ];
          rawCulturalContext := Some "woman and child together" |}));
     reviewReply := Fulfilled (Some (Parses
       {| rawScenario := Some "At a cafe"; rawDialogue := Some ls |}));
     imageReply := λ n, if (n =? 1)%nat then Fulfilled okImage else Rejected BackendError;
     speechReply := Rejected BackendError;
     chatReply := Rejected BackendError;
     analyzeReply := Rejected BackendError |}.

(** Wait for the recommendations, open the vocabulary page, start a
    review of the five seeded words and wait for the dialogue [ls]. *)
Definition intoReview (ls : list RawLine) : list Event :=
  [Settle 0 (cafe ls); Navigate Page.vocabulary; ClickStartReview; Settle 0 (cafe ls)].

(** Open the chat page while the first recommendations are still being
    fetched, and send a message. *)
Definition chatWhileLoading : list Event :=
  [Navigate Page.dialogue; ChatKey "Enter" "你好"].

(** The configuration a session ends in ([initialConfig] if an event of
    the session is not enabled). *)
Definition afterRun (evs : list Event) : Config :=
  default initialConfig (run initialConfig evs).

(** A first review of two exercises with its first answer given, then a
    second review requested from the vocabulary page. *)
Definition secondReview : list Event :=
  (intoReview [orderLine; payLine]
   ++ [ClickAnswer 0 4; Navigate Page.vocabulary; ClickStartReview])%list.

(** The recommendations have arrived (none), and a message is sent in the
    free chat. *)
Definition chatWhenIdle : list Event :=
  [Settle 0 (cafe []); Navigate Page.dialogue; ChatKey "Enter" "你好"].

(** Recommendations arrive; the first one is clicked. *)
Definition recommended : Backend :=
  {| recommendReply := Fulfilled (Some (Parses [hao]));
     etymologyReply := etymologyReply (cafe []);
     reviewReply := Rejected BackendError;
     imageReply := λ _, Rejected BackendError;
     speechReply := Rejected BackendError;
     chatReply := Rejected BackendError;
     analyzeReply := Rejected BackendError |}.

(** A review of two exercises has just been delivered. *)
Definition twoExercises : Config := afterRun (intoReview [orderLine; payLine]).

Definition twoExercisesData : ReviewData :=
  {| scenario := Some "At a cafe";
     dialogue := [plainLine orderLine None;
                  plainLine payLine (Some "data:image/png;base64,iVBOR")] |}.

Definition coffee : Word :=
  mkWord "咖啡" "Kā fēi" "Coffee" None 95 (Some "Daily") (Some false) (Some true).

(** The right word is chosen under the first exercise. *)
Definition answered : AppState :=
  default initialState (submitAnswer 0 4 (app twoExercises)).

(** A wrong word under the first exercise, then the right one, then the
    right word under the second exercise, which is the last line, then
    the first exercise once more. *)
Definition fourAnswers : list Event :=
  [ClickAnswer 0 0; ClickAnswer 0 4; ClickAnswer 1 0; ClickAnswer 0 4].

(** A review whose first line is spoken by the assistant; its speaker
    button is pressed. *)
Definition listenToGreeting : list Event :=
  (intoReview [greetLine; orderLine] ++ [ClickSpeaker 0])%list.

(** The vocabulary book with every word deselected. *)
Definition noneSelected : AppState :=
  setVocabulary (map toggleSelected seedVocabulary) initialState.

(** Words A (selected), B (not selected), C (selected). *)
Definition wordA : Word := mkWord "A" "a" "first" None 10 None None (Some true).
Definition wordB : Word := mkWord "B" "b" "second" None 20 None None (Some false).
Definition wordC : Word := mkWord "C" "c" "third" None 30 None None (Some true).
Definition abc : AppState := setVocabulary [wordA; wordB; wordC] initialState.

(** An image response whose first candidate has two parts with inline
    data around a text part, and a second candidate. *)
Definition twoImagesParts : list Part :=
  [ {| inlineData := Some {| data := "AAAA" |}; partText := None |};
    {| inlineData := None; partText := Some "a caption" |};
    {| inlineData := Some {| data := "BBBB" |}; partText := None |} ].

Definition twoImages : MediaResponse :=
  {| candidates := Some [ {| content := Some {| parts := Some twoImagesParts |} |} ] |}.

(** A backend whose chat replies. *)
Definition chatty : Backend :=
  {| recommendReply := Fulfilled None;
     etymologyReply := Rejected BackendError;
     reviewReply := Rejected BackendError;
     imageReply := λ _, Rejected BackendError;
     speechReply := Rejected BackendError;
     chatReply := Fulfilled (Some "你好！很高兴认识你。");
     analyzeReply := Fulfilled (Some "出口 (Chū kǒu) Exit") |}.

(** A message is sent in the free chat and answered. *)
Definition chatAnswered : list Event :=
  (chatWhenIdle ++ [Settle 0 chatty])%list.

(** The free chat is open and idle. *)
Definition chatOpen : Config :=
  afterRun [Settle 0 (cafe []); Navigate Page.dialogue].

(** A review that opens with a line of the assistant, as dialogues
    usually do. *)
Definition greetedReview : Config := afterRun (intoReview [greetLine; orderLine]).

Definition greetedData : ReviewData :=
  {| scenario := Some "At a cafe";
     dialogue := [plainLine greetLine None; plainLine orderLine None] |}.

(** The user tries the speaker button and the other pages, a refresh of
    the recommendations fails, a word is deselected. *)
Definition restless : list Event :=
  [ClickSpeaker 0; Navigate Page.recommendation; ClickRefresh; Settle 1 offline;
   Navigate Page.vocabulary; ToggleWord 0; Navigate Page.dialogue; ClickSpeaker 0].

End Scenario.

(** ** The gateway *)

Module GatewayFacts.
Import Gateway App Spec Scenario.

Lemma parse_or_payload {A} (fallback a : A) (t : option (Body A)) :
  parse_or fallback t = Fulfilled a →
  (t = None ∧ a = fallback) ∨ t = Some (Parses a).
Proof.
  destruct t as [[|a']|]; simpl; intros H; try discriminate.
  - right. congruence.
  - left. split; congruence.
Qed.

(** C9, as stated, fails: a reply that follows the response schema and
    carries the proficiency 150 is returned as it came. *)
Lemma recommendation_out_of_range :
  (getVocabularyRecommendations overRange "English" "HSK 3").1 = Fulfilled [hao]
  ∧ hao ∈ [hao] ∧ proficiency hao = 150 ∧ ¬ inRange hao.
Proof.
  split; [reflexivity|]. split; [apply list_elem_of_here|].
  split; [reflexivity|]. unfold inRange. simpl. lia.
Qed.

(** C9, amended: the list the recommendation fetch returns is the parsed
    payload of the backend's reply, item for item (the empty list when the
    reply has no text); nothing is checked or clamped on the way, so an
    item's proficiency lies in [0,100] exactly when the backend sent it
    so. *)
Theorem recommendations_are_the_payload (b : Backend) (lang lvl : string) (ws : list Word) :
  (getVocabularyRecommendations b lang lvl).1 = Fulfilled ws →
  ws = recommendedPayload b
  ∧ (Forall inRange ws ↔ ∀ w, w ∈ recommendedPayload b → 0 ≤ proficiency w ≤ 100).
Proof.
  unfold getVocabularyRecommendations, recommendedPayload.
  destruct (recommendReply b) as [t|e]; simpl; [|discriminate].
  intros H. apply parse_or_payload in H as [[-> ->]| ->].
  - split; [reflexivity|]. split; [intros _ w Hw; inversion Hw | constructor].
  - split; [reflexivity|]. apply Forall_forall.
Qed.

Lemma recommendations_are_the_payload_witness :
  [hao] = recommendedPayload overRange
  ∧ (Forall inRange [hao] ↔ ∀ w, w ∈ recommendedPayload overRange → 0 ≤ proficiency w ≤ 100).
Proof.
  apply (recommendations_are_the_payload overRange "English" "HSK 3" [hao]).
  reflexivity.
Defined.

(** *** The loops over the items *)

Lemma illustrate_fst (r : Settled MediaResponse) (c : RawComponent) :
  (illustrate r c).1 =
    {| char := rawChar c; compMeaning := rawMeaning c; imageUrl := imageOf r |}.
Proof. unfold illustrate, imageOf. destruct (inlineImage r); reflexivity. Qed.

Lemma illustrateAll_length img n cs :
  length (illustrateAll img n cs).1 = length cs.
Proof.
  revert n. induction cs as [|c cs IH]; intros n; simpl; [reflexivity|].
  destruct (illustrate (img n) c) as [c' e1].
  specialize (IH (S n)). destruct (illustrateAll img (S n) cs) as [cs' e2].
  simpl in *. by rewrite IH.
Qed.

Lemma illustrateAll_lookup img n cs k c :
  cs !! k = Some c →
  (illustrateAll img n cs).1 !! k =
    Some {| char := rawChar c; compMeaning := rawMeaning c;
            imageUrl := imageOf (img (n + k)%nat) |}.
Proof.
  revert n k. induction cs as [|c0 cs IH]; intros n k Hk; [by destruct k|].
  simpl. pose proof (illustrate_fst (img n) c0) as Hc.
  destruct (illustrate (img n) c0) as [c' e1].
  specialize (IH (S n)). destruct (illustrateAll img (S n) cs) as [cs' e2].
  simpl in *. subst c'. destruct k as [|k]; simpl in *.
  - inversion Hk; subst. by rewrite Nat.add_0_r.
  - rewrite (IH k Hk). by rewrite Nat.add_succ_r.
Qed.

Lemma hintAll_length img n ls :
  length (hintAll img n ls).1 = length ls.
Proof.
  revert n. induction ls as [|l ls IH]; intros n; simpl; [reflexivity|].
  destruct (wantsHint l).
  - specialize (IH (S n)). destruct (hintAll img (S n) ls) as [ls' e2].
    destruct (inlineImage (img n)); simpl in *; by rewrite IH.
  - specialize (IH n). destruct (hintAll img n ls) as [ls' e2].
    simpl in *. by rewrite IH.
Qed.

Lemma hintsBefore_cons (k : nat) (l0 : RawLine) (ls : list RawLine) :
  hintsBefore (S k) (l0 :: ls) =
    ((if wantsHint l0 then 1 else 0) + hintsBefore k ls)%nat.
Proof. unfold hintsBefore. simpl. by destruct (wantsHint l0). Qed.

Lemma hintAll_lookup img n ls k l :
  ls !! k = Some l →
  (hintAll img n ls).1 !! k =
    Some (plainLine l (if wantsHint l
                       then imageOf (img (n + hintsBefore k ls)%nat) else None)).
Proof.
  revert n k. induction ls as [|l0 ls IH]; intros n k Hk; [by destruct k|].
  destruct k as [|k].
  - inversion Hk; subst. simpl. unfold hintsBefore, imageOf. simpl.
    rewrite Nat.add_0_r. destruct (wantsHint l).
    + destruct (hintAll img (S n) ls). by destruct (inlineImage (img n)).
    + by destruct (hintAll img n ls).
  - simpl in Hk. rewrite hintsBefore_cons. simpl hintAll.
    destruct (wantsHint l0).
    + specialize (IH (S n) k Hk). destruct (hintAll img (S n) ls) as [ls' e2].
      replace (n + (1 + hintsBefore k ls))%nat with (S n + hintsBefore k ls)%nat by lia.
      by destruct (inlineImage (img n)).
    + specialize (IH n k Hk). by destruct (hintAll img n ls) as [ls' e2].
Qed.

Lemma imageOf_failed (r : Settled MediaResponse) :
  is_fulfilled (inlineImage r) = false → imageOf r = None.
Proof. unfold imageOf. by destruct (inlineImage r). Qed.

Lemma getEtymology_delivers (b : Backend) (w : string) (d : EtymologyPayload) :
  primaryEtymology b = Fulfilled d →
  (getEtymology b w).1 =
    Fulfilled {| components := (λ cs, (illustrateAll (imageReply b) 0 cs).1) <$> rawComponents d;
                 culturalContext := rawCulturalContext d |}.
Proof.
  unfold primaryEtymology, getEtymology.
  destruct (etymologyReply b) as [t|e]; [|discriminate].
  intros ->. destruct (rawComponents d) as [cs|]; simpl; [|reflexivity].
  by destruct (illustrateAll (imageReply b) 0 cs).
Qed.

Lemma getReviewDialogue_delivers (b : Backend) (sel : list Word) (d : ReviewPayload)
    (ls : list RawLine) :
  primaryReview b = Fulfilled d → rawDialogue d = Some ls →
  (getReviewDialogue b sel).1 =
    Fulfilled {| scenario := rawScenario d; dialogue := (hintAll (imageReply b) 0 ls).1 |}.
Proof.
  unfold primaryReview, getReviewDialogue.
  destruct (reviewReply b) as [t|e]; [|discriminate].
  intros -> ->. by destruct (hintAll (imageReply b) 0 ls).
Qed.

(** C7: once the primary request of an etymology fetch or of a
    review-dialogue fetch has delivered a payload (with its dialogue, for
    a review), the fetch is fulfilled whatever happens to the image
    requests: every item of the payload is delivered with its own fields,
    and an item whose image request failed has no image. *)
Theorem dependent_image_failure_is_not_fatal (b : Backend) :
  (∀ w d, primaryEtymology b = Fulfilled d →
     ∃ data, (getEtymology b w).1 = Fulfilled data
       ∧ culturalContext data = rawCulturalContext d
       ∧ (rawComponents d = None → components data = None)
       ∧ ∀ cs, rawComponents d = Some cs →
           ∃ cs', components data = Some cs' ∧ length cs' = length cs
             ∧ ∀ k c, cs !! k = Some c →
                 ∃ c', cs' !! k = Some c'
                   ∧ char c' = rawChar c ∧ compMeaning c' = rawMeaning c
                   ∧ (is_fulfilled (inlineImage (imageReply b k)) = false →
                      imageUrl c' = None))
  ∧ (∀ sel d ls, primaryReview b = Fulfilled d → rawDialogue d = Some ls →
     ∃ data, (getReviewDialogue b sel).1 = Fulfilled data
       ∧ scenario data = rawScenario d
       ∧ length (dialogue data) = length ls
       ∧ ∀ k l, ls !! k = Some l →
           ∃ l', dialogue data !! k = Some l'
             ∧ l' = plainLine l (hintImageUrl l')
             ∧ (wantsHint l = false → hintImageUrl l' = None)
             ∧ (is_fulfilled (inlineImage (imageReply b (hintsBefore k ls))) = false →
                hintImageUrl l' = None)).
Proof.
  split.
  - intros w d Hd. eexists. split; [by apply getEtymology_delivers|].
    simpl. split; [reflexivity|]. split; [by intros ->|].
    intros cs ->. simpl. eexists. split; [reflexivity|].
    split; [apply illustrateAll_length|].
    intros k c Hk. eexists. split; [by apply illustrateAll_lookup|].
    simpl. repeat split. apply imageOf_failed.
  - intros sel d ls Hd Hls. eexists.
    split; [by apply getReviewDialogue_delivers|].
    simpl. split; [reflexivity|]. split; [apply hintAll_length|].
    intros k l Hk. eexists. split; [by apply hintAll_lookup|].
    simpl. split; [reflexivity|]. split.
    + by intros ->.
    + intros Hf. destruct (wantsHint l); [|reflexivity]. by apply imageOf_failed.
Qed.

(** In the cafe session the image request of the first radical fails and
    that of the second succeeds; the hint image of the only exercise
    fails.  Both parents are delivered. *)
Lemma dependent_image_failure_is_not_fatal_witness :
  (∃ c0 c1 ctx,
     (getEtymology (cafe [orderLine]) "好").1
       = Fulfilled {| components := Some [c0; c1]; culturalContext := ctx |}
     ∧ imageUrl c0 = None ∧ char c0 = Some "女"
     ∧ imageUrl c1 = Some "data:image/png;base64,iVBOR")
  ∧ (∃ l' sc,
     (getReviewDialogue (cafe [greetLine; orderLine]) seedVocabulary).1
       = Fulfilled {| scenario := sc; dialogue := [plainLine greetLine None; l'] |}
     ∧ blankWord l' = Some "咖啡" ∧ hintImageUrl l' = None).
Proof.
  split.
  - destruct (dependent_image_failure_is_not_fatal (cafe [orderLine])) as [H _].
    destruct (H "好" _ eq_refl) as (data & Hdata & _ & _ & Hcs).
    destruct (Hcs _ eq_refl) as (cs' & _ & _ & Hk).
    destruct (Hk 0%nat _ eq_refl) as (c0 & _ & _ & _ & H0).
    specialize (H0 eq_refl).
    eexists _, _, _. split; [vm_compute; reflexivity|].
    split; [reflexivity|]. split; reflexivity.
  - destruct (dependent_image_failure_is_not_fatal (cafe [greetLine; orderLine])) as [_ H].
    destruct (H seedVocabulary _ _ eq_refl eq_refl) as (data & Hdata & _ & _ & Hk).
    destruct (Hk 1%nat _ eq_refl) as (l' & _ & _ & _ & H1).
    specialize (H1 eq_refl).
    eexists _, _. split; [vm_compute; reflexivity|].
    split; reflexivity.
Defined.

(** *** The word pool of a review *)

Lemma selectedOf_spec (vocab : list Word) (w : Word) :
  w ∈ selectedOf vocab ↔ w ∈ vocab ∧ isSelected w = Some true.
Proof.
  unfold selectedOf. rewrite !list_elem_of_In, filter_In.
  assert (truthyb (isSelected w) = true ↔ isSelected w = Some true) as ->; [|done].
  destruct (isSelected w) as [[]|]; simpl; split; congruence.
Qed.

Lemma selectedOf_sublist (vocab : list Word) :
  sublist (selectedOf vocab) vocab.
Proof.
  induction vocab as [|w vocab IH]; simpl; [constructor|].
  destruct (truthyb (isSelected w)); by constructor.
Qed.

End GatewayFacts.

(** ** The view state machine *)

Module ViewFacts.
Import Gateway App Spec Scenario GatewayFacts.

(** *** Basic facts about the transition system *)

Lemma invoke_none (c : Config) : invoke c (app c, None) = c.
Proof. destruct c. unfold invoke. simpl. by rewrite app_nil_r. Qed.

Lemma issued_invoke (c : Config) (r : AppState * option Pending) :
  issued c (invoke c r) = option_list r.2.
Proof. unfold issued, invoke. simpl. by rewrite drop_app_length. Qed.

Lemma pageEffect_same_page (prev : PageType) (c : Config) :
  activePage (app c) = prev → pageEffect prev c = c.
Proof.
  intros H. unfold pageEffect.
  rewrite (bool_decide_eq_false_2 (activePage (app c) ≠ prev)); [done|].
  intros Hne. by apply Hne.
Qed.

Lemma pageEffect_other_page (prev : PageType) (c : Config) :
  activePage (app c) ≠ Page.recommendation → pageEffect prev c = c.
Proof.
  intros H. unfold pageEffect.
  rewrite (bool_decide_eq_false_2 (activePage (app c) = Page.recommendation)); [|done].
  by rewrite andb_false_r.
Qed.

(** *** Starting a review *)

(** C5: with no word selected, [startTargetedReview] returns before its
    first setter: the state is the one it was called on and no gateway
    call is issued; the configuration of the interface is unchanged, and
    the review-start button is disabled. *)
Theorem review_without_selection_is_noop (c : Config) :
  selectedOf (vocabulary (app c)) = [] →
  startTargetedReview (app c) = (app c, None)
  ∧ invoke c (startTargetedReview (app c)) = c
  ∧ handle c ClickStartReview = None.
Proof.
  intros H. assert (startTargetedReview (app c) = (app c, None)) as E.
  { unfold startTargetedReview. by rewrite H. }
  split; [exact E|]. split.
  - rewrite E. apply invoke_none.
  - unfold handle. rewrite H. simpl. by rewrite orb_true_r, andb_false_r.
Qed.

Lemma review_without_selection_is_noop_witness :
  startTargetedReview noneSelected = (noneSelected, None)
  ∧ invoke {| app := noneSelected; inflight := []; unhandled := [] |}
           (startTargetedReview noneSelected)
    = {| app := noneSelected; inflight := []; unhandled := [] |}
  ∧ handle {| app := noneSelected; inflight := []; unhandled := [] |} ClickStartReview = None.
Proof.
  apply (review_without_selection_is_noop
           {| app := noneSelected; inflight := []; unhandled := [] |}).
  reflexivity.
Defined.

(** C6: the words handed to the dialogue-generation call are the words of
    the vocabulary whose selection flag is true, in vocabulary order, and
    the prompt names the text of exactly these words. *)
Theorem review_pool_is_the_selection (st : AppState) :
  (selectedOf (vocabulary st) ≠ [] →
     startTargetedReview st
       = (setLoading true st, Some (AwaitReviewDialogue (selectedOf (vocabulary st)))))
  ∧ (∀ w, w ∈ selectedOf (vocabulary st) ↔ w ∈ vocabulary st ∧ isSelected w = Some true)
  ∧ sublist (selectedOf (vocabulary st)) (vocabulary st)
  ∧ (∀ b sel, head (getReviewDialogue b sel).2
       = Some (Sent {| model := textModel;
                       contents := ReviewPrompt (String.concat ", " (map word sel)) |})).
Proof.
  split; [|split; [|split]].
  - intros H. unfold startTargetedReview.
    destruct (selectedOf (vocabulary st)); [done|reflexivity].
  - intros w. apply selectedOf_spec.
  - apply selectedOf_sublist.
  - intros b sel. unfold getReviewDialogue, wordList.
    destruct (reviewReply b) as [t|e]; [|reflexivity].
    destruct (parse_or _ t) as [d|e]; [|reflexivity].
    destruct (rawDialogue d) as [ls|]; [|reflexivity].
    by destruct (hintAll (imageReply b) 0 ls).
Qed.

(** The example of the specification: A and C are selected, B is not. *)
Lemma review_pool_is_the_selection_witness :
  startTargetedReview abc = (setLoading true abc, Some (AwaitReviewDialogue [wordA; wordC]))
  ∧ head (getReviewDialogue offline [wordA; wordC]).2
    = Some (Sent {| model := textModel; contents := ReviewPrompt "A, C" |}).
Proof.
  destruct (review_pool_is_the_selection abc) as (H1 & _ & _ & H4).
  split; [by apply H1 | apply H4].
Defined.

(** C10: when the dialogue-generation call of [startTargetedReview] is
    fulfilled with [d], the session starts over: step 0, no answers, the
    dialogue page, and [d] as the review data. *)
Theorem review_starts_reset (c : Config) (n : nat) (sel : list Word) (b : Backend)
    (d : ReviewData) :
  inflight c !! n = Some (AwaitReviewDialogue sel) →
  (getReviewDialogue b sel).1 = Fulfilled d →
  ∃ c', step c (Settle n b) = Some c'
    ∧ reviewStep (app c') = 0
    ∧ reviewAnswers (app c') = ∅
    ∧ activePage (app c') = Page.dialogue
    ∧ reviewData (app c') = Some d.
Proof.
  intros Hp Hd. unfold step, handle. rewrite Hp. simpl. rewrite Hd. simpl.
  eexists. split; [reflexivity|].
  rewrite pageEffect_other_page; [|done]. done.
Qed.

(** The second review of the session [secondReview] replaces a first one
    that had an answer recorded and had reached step 1. *)
Lemma review_starts_reset_witness :
  (reviewStep (app (afterRun secondReview)) = 1
   ∧ reviewAnswers (app (afterRun secondReview)) !! 0%nat = Some "咖啡")
  ∧ ∃ c', step (afterRun secondReview) (Settle 0 (cafe [greetLine])) = Some c'
    ∧ reviewStep (app c') = 0
    ∧ reviewAnswers (app c') = ∅
    ∧ activePage (app c') = Page.dialogue
    ∧ reviewData (app c')
      = Some {| scenario := Some "At a cafe"; dialogue := [plainLine greetLine None] |}.
Proof.
  split; [split; reflexivity|].
  apply (review_starts_reset (afterRun secondReview) 0 seedVocabulary (cafe [greetLine])).
  - reflexivity.
  - reflexivity.
Defined.

(** *** Opening a recommended word *)

(** C8: a click on entry [i] of the recommendations puts exactly one call
    in flight, the etymology fetch for that entry's text, and leaves the
    page alone; when the call settles, the page is the etymology page if
    and only if the fetch was fulfilled, and the recommendation page it
    was on otherwise. *)
Theorem recommended_click_fetches_etymology (c : Config) (i : nat) (w : Word) :
  activePage (app c) = Page.recommendation →
  recommendedWords (app c) !! i = Some w →
  ∃ c1, step c (ClickRecommended i) = Some c1
    ∧ issued c c1 = [AwaitEtymology (word w)]
    ∧ activePage (app c1) = Page.recommendation
    ∧ ∀ b, ∃ c2, step c1 (Settle (length (inflight c)) b) = Some c2
        ∧ issued c c2 = []
        ∧ (activePage (app c2) = Page.etymology
           ↔ is_fulfilled (getEtymology b (word w)).1 = true)
        ∧ (is_fulfilled (getEtymology b (word w)).1 = false →
           activePage (app c2) = Page.recommendation)
        ∧ (∀ d, (getEtymology b (word w)).1 = Fulfilled d →
           currentEtymology (app c2) = Some (word w, d)).
Proof.
  intros Hpage Hw.
  exists (invoke c (fetchEtymology (word w) (app c))). split.
  { unfold step, handle, onPage. rewrite bool_decide_eq_true_2 by done.
    rewrite Hw. simpl. by rewrite pageEffect_same_page. }
  split; [apply issued_invoke|]. split; [exact Hpage|].
  intros b. unfold step, handle. simpl.
  rewrite lookup_app_r by lia. rewrite Nat.sub_diag. simpl.
  destruct (getEtymology b (word w)).1 as [d|e]; simpl.
  - eexists. split; [reflexivity|].
    rewrite pageEffect_other_page by done. simpl.
    split.
    { unfold issued. simpl. rewrite delete_middle, app_nil_r. apply drop_all. }
    split; [done|]. split; [done|]. intros d' [= ->]. done.
  - eexists. split; [reflexivity|].
    rewrite pageEffect_same_page by done. simpl.
    split.
    { unfold issued. simpl. rewrite delete_middle, app_nil_r. apply drop_all. }
    split; [rewrite Hpage; split; done|]. split; [done|]. intros d' [=].
Qed.

(** The recommendations of [recommended] have arrived; the entry 好 is
    clicked. *)
Lemma recommended_click_fetches_etymology_witness :
  ∃ c1, step (afterRun [Settle 0 recommended]) (ClickRecommended 0) = Some c1
    ∧ issued (afterRun [Settle 0 recommended]) c1 = [AwaitEtymology "好"]
    ∧ activePage (app c1) = Page.recommendation
    ∧ ∀ b, ∃ c2,
        step c1 (Settle (length (inflight (afterRun [Settle 0 recommended]))) b) = Some c2
        ∧ issued (afterRun [Settle 0 recommended]) c2 = []
        ∧ (activePage (app c2) = Page.etymology
           ↔ is_fulfilled (getEtymology b "好").1 = true)
        ∧ (is_fulfilled (getEtymology b "好").1 = false →
           activePage (app c2) = Page.recommendation)
        ∧ (∀ d, (getEtymology b "好").1 = Fulfilled d →
           currentEtymology (app c2) = Some ("好", d)).
Proof.
  apply (recommended_click_fetches_etymology (afterRun [Settle 0 recommended]) 0 hao).
  - reflexivity.
  - reflexivity.
Defined.

(** *** Answering a review exercise *)

Lemma submitAnswer_inv (i k : nat) (st st' : AppState) :
  submitAnswer i k st = Some st' →
  ∃ d line w,
    reviewData st = Some d
    ∧ shownLines st d !! i = Some line
    ∧ selectedOf (vocabulary st) !! k = Some w
    ∧ isExercise line = true
    ∧ st' = answerClick (reviewStep st) d i line w st.
Proof.
  unfold submitAnswer. intros H.
  destruct (reviewData st) as [d|] eqn:Hd; [|discriminate]. simpl in H.
  destruct (shownLines st d !! i) as [line|] eqn:Hl; [|discriminate]. simpl in H.
  destruct (selectedOf (vocabulary st) !! k) as [w|] eqn:Hw; [|discriminate]. simpl in H.
  destruct (isExercise line) eqn:He; [|discriminate].
  inversion H; subst. exists d, line, w. repeat split; assumption || reflexivity.
Qed.

Lemma answerClick_frame (s : Z) (d : ReviewData) (i : nat) (line : Line) (w : Word)
    (st : AppState) :
  reviewData (answerClick s d i line w st) = reviewData st
  ∧ reviewAnswers (answerClick s d i line w st) = <[i := word w]> (reviewAnswers st)
  ∧ activePage (answerClick s d i line w st) = activePage st
  ∧ loading (answerClick s d i line w st) = loading st
  ∧ vocabulary (answerClick s d i line w st) = vocabulary st
  ∧ recommendedWords (answerClick s d i line w st) = recommendedWords st.
Proof. unfold answerClick. repeat case_match; done. Qed.

Lemma answerClick_step (d : ReviewData) (i : nat) (line : Line) (w : Word)
    (st : AppState) :
  reviewStep (answerClick (reviewStep st) d i line w st) =
    if bool_decide (blankWord line = Some (word w) ∧ reviewStep st < lastIndex d)
    then reviewStep st + 1 else reviewStep st.
Proof.
  unfold answerClick, lastIndex.
  destruct (bool_decide_reflect (blankWord line = Some (word w))) as [Hb|Hb];
    destruct (Z.ltb_spec (reviewStep st) (Z.of_nat (length (dialogue d)) - 1)) as [Hl|Hl];
    simpl.
  - by rewrite bool_decide_eq_true_2.
  - rewrite bool_decide_eq_false_2; [done|]. intros [_ ?]. lia.
  - rewrite bool_decide_eq_false_2; [done|]. by intros [? _].
  - rewrite bool_decide_eq_false_2; [done|]. by intros [? _].
Qed.

(** C1, as stated, fails on the last line: in a review of one exercise
    the right word is recorded and the step index stays where it is. *)
Lemma right_answer_on_last_line_stays :
  run initialConfig (intoReview [orderLine]) = Some (afterRun (intoReview [orderLine]))
  ∧ reviewData (app (afterRun (intoReview [orderLine])))
    = Some {| scenario := Some "At a cafe"; dialogue := [plainLine orderLine None] |}
  ∧ selectedOf (vocabulary (app (afterRun (intoReview [orderLine])))) !! 4%nat
    = Some (mkWord "咖啡" "Kā fēi" "Coffee" None 95 (Some "Daily") (Some false) (Some true))
  ∧ blankWord (plainLine orderLine None) = Some "咖啡"
  ∧ ∃ st', submitAnswer 0 4 (app (afterRun (intoReview [orderLine]))) = Some st'
      ∧ reviewAnswers st' !! 0%nat = Some "咖啡"
      ∧ reviewStep (app (afterRun (intoReview [orderLine]))) = 0
      ∧ reviewStep st' = 0.
Proof.
  split; [vm_compute; reflexivity|]. split; [vm_compute; reflexivity|].
  split; [vm_compute; reflexivity|]. split; [reflexivity|].
  eexists. split; [vm_compute; reflexivity|].
  split; [vm_compute; reflexivity|]. split; vm_compute; reflexivity.
Qed.

(** C1, amended: a submission of word [w] on the shown exercise line [i]
    is recorded under [i]; the step index advances by exactly one when [w]
    is the blank target of that line and the step index is below the last
    line, and stays unchanged in every other case (another word, or the
    right word with the step index on the last line). *)
Theorem submission_records_and_advances (st st' : AppState) (i k : nat)
    (d : ReviewData) (line : Line) (w : Word) :
  reviewData st = Some d →
  shownLines st d !! i = Some line →
  selectedOf (vocabulary st) !! k = Some w →
  submitAnswer i k st = Some st' →
  reviewAnswers st' = <[i := word w]> (reviewAnswers st)
  ∧ reviewAnswers st' !! i = Some (word w)
  ∧ (reviewStep st' = reviewStep st + 1
     ↔ blankWord line = Some (word w) ∧ reviewStep st < lastIndex d)
  ∧ (reviewStep st' = reviewStep st
     ↔ blankWord line ≠ Some (word w) ∨ lastIndex d ≤ reviewStep st).
Proof.
  intros Hd Hl Hw H.
  apply submitAnswer_inv in H as (d' & line' & w' & Hd' & Hl' & Hw' & _ & ->).
  rewrite Hd in Hd'. inversion Hd'; subst d'.
  rewrite Hl in Hl'. inversion Hl'; subst line'.
  rewrite Hw in Hw'. inversion Hw'; subst w'.
  destruct (answerClick_frame (reviewStep st) d i line w st) as (_ & Ha & _).
  rewrite Ha, answerClick_step. split; [done|].
  split; [apply lookup_insert_eq|].
  destruct (bool_decide_reflect (blankWord line = Some (word w) ∧ reviewStep st < lastIndex d))
    as [[Hb Hlt]|Hn].
  - split; [done|]. split; [lia|]. intros [?|?]; [done|lia].
  - split; [split; [lia|done]|]. split; [|done]. intros _.
    destruct (decide (blankWord line = Some (word w))) as [Hb|Hb]; [|by left].
    right. destruct (Z.lt_ge_cases (reviewStep st) (lastIndex d)); [|lia].
    exfalso. by apply Hn.
Qed.

(** In a review of two exercises the right word under the first one is
    recorded and moves the step index from 0 to 1. *)
Lemma submission_records_and_advances_witness :
  reviewAnswers answered = <[0%nat := word coffee]> (reviewAnswers (app twoExercises))
  ∧ reviewAnswers answered !! 0%nat = Some (word coffee)
  ∧ (reviewStep answered = reviewStep (app twoExercises) + 1
     ↔ blankWord (plainLine orderLine None) = Some (word coffee)
       ∧ reviewStep (app twoExercises) < lastIndex twoExercisesData)
  ∧ (reviewStep answered = reviewStep (app twoExercises)
     ↔ blankWord (plainLine orderLine None) ≠ Some (word coffee)
       ∨ lastIndex twoExercisesData ≤ reviewStep (app twoExercises)).
Proof.
  apply (submission_records_and_advances (app twoExercises) answered 0 4
           twoExercisesData (plainLine orderLine None) coffee);
    vm_compute; reflexivity.
Defined.

(** *** The range of the step index *)

Lemma pageEffect_review (prev : PageType) (c : Config) :
  reviewData (app (pageEffect prev c)) = reviewData (app c)
  ∧ reviewStep (app (pageEffect prev c)) = reviewStep (app c).
Proof. unfold pageEffect. by case_match. Qed.

Lemma resume_stepInRange (b : Backend) (p : Pending) (st : AppState) :
  stepInRange st → stepInRange (resume b p st).1.
Proof.
  intros [H0 Hd].
  assert (∀ st', reviewStep st' = reviewStep st → reviewData st' = reviewData st →
                 stepInRange st') as Hsame.
  { intros st' Hs Hr. split; [by rewrite Hs|]. rewrite Hs, Hr. exact Hd. }
  destruct p as [lang lvl|w|selected|t|history val|base64]; simpl.
  - destruct (getVocabularyRecommendations b lang lvl).1; by apply Hsame.
  - destruct (getEtymology b w).1; by apply Hsame.
  - destruct (getReviewDialogue b selected).1 as [d|e]; [|by apply Hsame].
    split; simpl; [done|]. intros d' [= <-] Hne. unfold lastIndex.
    destruct (dialogue d); [done|]. simpl length. lia.
  - by apply Hsame.
  - destruct (chatReply b); by apply Hsame.
  - destruct (analyzeReply b); by apply Hsame.
Qed.

Lemma submitAnswer_stepInRange (i k : nat) (st st' : AppState) :
  submitAnswer i k st = Some st' →
  reviewData st' = reviewData st
  ∧ reviewStep st ≤ reviewStep st'
  ∧ (stepInRange st → stepInRange st').
Proof.
  intros H. apply submitAnswer_inv in H as (d & line & w & Hd & _ & _ & _ & ->).
  destruct (answerClick_frame (reviewStep st) d i line w st) as (Hrd & _).
  pose proof (answerClick_step d i line w st) as Hs.
  split; [exact Hrd|]. split.
  { rewrite Hs. case_bool_decide; lia. }
  intros [H0 Hin]. split.
  - rewrite Hs. case_bool_decide; lia.
  - rewrite Hrd, Hd. intros d' [= <-] Hne. rewrite Hs.
    case_bool_decide as Hc; [lia|]. apply Hin; done.
Qed.

Lemma handle_stepInRange (c c' : Config) (ev : Event) :
  handle c ev = Some c' → stepInRange (app c) → stepInRange (app c').
Proof.
  intros H Inv.
  assert (∀ st', reviewStep st' = reviewStep (app c) →
                 reviewData st' = reviewData (app c) → stepInRange st') as Hsame.
  { destruct Inv as [H0 Hd]. intros st' Hs Hr.
    split; [by rewrite Hs|]. rewrite Hs, Hr. exact Hd. }
  destruct ev; simpl in H.
  - inversion H. by apply Hsame.
  - case_match; inversion H. by apply Hsame.
  - case_match; inversion H. by apply Hsame.
  - case_match; inversion H. by apply Hsame.
  - case_match; [|done]. destruct (recommendedWords (app c) !! i); inversion H.
    by apply Hsame.
  - case_match; [|done]. unfold toggleWordSelection in H.
    destruct (vocabulary (app c) !! i); inversion H. by apply Hsame.
  - case_match; [|done]. inversion H. unfold startTargetedReview.
    case_match; by apply Hsame.
  - case_match; [|done].
    destruct (submitAnswer i k (app c)) as [st'|] eqn:Hs; [|done].
    inversion H. simpl. by apply (submitAnswer_stepInRange i k (app c) st').
  - case_match; [|done]. destruct (reviewData (app c)); [|done]. simpl in H.
    case_match; [|done]. inversion H. simpl. destruct Inv as [Hz _].
    split; [exact Hz|]. intros d' [=].
  - case_match; [|done]. destruct (reviewData (app c)) as [d|] eqn:Hrd; [|done].
    simpl in H. destruct (shownLines (app c) d !! i); [|done]. simpl in H.
    case_match; inversion H. by apply Hsame.
  - case_match; [|done]. destruct (reviewData (app c)) eqn:Hrd; [done|].
    inversion H. unfold chatKeyDown. case_match; by apply Hsame.
  - case_match; inversion H. by apply Hsame.
  - inversion H. by apply Hsame.
  - case_match; inversion H. by apply Hsame.
  - destruct (inflight c !! n) as [p|]; [|done]. simpl in H.
    pose proof (resume_stepInRange b p (app c) Inv) as Hr.
    destruct (resume b p (app c)) as [st' out]. by inversion H.
Qed.

Lemma step_stepInRange (c c' : Config) (ev : Event) :
  step c ev = Some c' → stepInRange (app c) → stepInRange (app c').
Proof.
  unfold step. intros H Inv.
  destruct (handle c ev) as [c1|] eqn:Hh; [|done]. inversion H.
  pose proof (handle_stepInRange c c1 ev Hh Inv) as [H0 Hd].
  destruct (pageEffect_review (activePage (app c)) c1) as [Hrd Hrs].
  split; [by rewrite Hrs|]. rewrite Hrd, Hrs. exact Hd.
Qed.

Lemma run_stepInRange (evs : list Event) (c c' : Config) :
  run c evs = Some c' → stepInRange (app c) → stepInRange (app c').
Proof.
  revert c. induction evs as [|ev evs IH]; intros c H Inv; simpl in H.
  - inversion H; subst. exact Inv.
  - destruct (step c ev) as [c1|] eqn:Hs; [|done]. simpl in H.
    apply (IH c1 H). by apply (step_stepInRange c c1 ev).
Qed.

Lemma reachable_stepInRange (c : Config) : reachable c → stepInRange (app c).
Proof.
  intros [evs H]. apply (run_stepInRange evs initialConfig c H).
  split; [done|]. intros d [=].
Qed.

Lemma submission_step (c c' : Config) (ev : Event) :
  isSubmission ev = true → step c ev = Some c' →
  reviewData (app c') = reviewData (app c) ∧ reviewStep (app c) ≤ reviewStep (app c').
Proof.
  destruct ev; try done. intros _. unfold step. simpl.
  case_match; [|done].
  destruct (submitAnswer i k (app c)) as [st'|] eqn:Hs; [|done]. simpl.
  intros [= <-].
  destruct (pageEffect_review (activePage (app c)) (invoke c (st', None))) as [-> ->].
  simpl. destruct (submitAnswer_stepInRange i k (app c) st' Hs) as (? & ? & _). done.
Qed.

Lemma submissions_run (evs : list Event) (c c' : Config) :
  forallb isSubmission evs = true → run c evs = Some c' →
  reviewData (app c') = reviewData (app c) ∧ reviewStep (app c) ≤ reviewStep (app c').
Proof.
  revert c. induction evs as [|ev evs IH]; intros c Hall H; simpl in *.
  - inversion H. split; [done|lia].
  - apply andb_prop in Hall as [Hev Hall].
    destruct (step c ev) as [c1|] eqn:Hs; [|done]. simpl in H.
    destruct (submission_step c c1 ev Hev Hs) as [E1 L1].
    destruct (IH c1 Hall H) as [E2 L2]. split; [congruence|lia].
Qed.

(** C2: in every reachable configuration with a review whose dialogue has
    a line, the step index lies between 0 and the last index; along any
    sequence of answer submissions from there the review stays the same,
    the step index never decreases and never passes the last index. *)
Theorem review_step_stays_in_range (c c' : Config) (d : ReviewData) (evs : list Event) :
  reachable c →
  reviewData (app c) = Some d →
  dialogue d ≠ [] →
  forallb isSubmission evs = true →
  run c evs = Some c' →
  0 ≤ reviewStep (app c) ≤ lastIndex d
  ∧ reviewData (app c') = Some d
  ∧ reviewStep (app c) ≤ reviewStep (app c') ≤ lastIndex d.
Proof.
  intros Hr Hd Hne Hall Hrun.
  destruct (reachable_stepInRange c Hr) as [H0 Hin].
  destruct (submissions_run evs c c' Hall Hrun) as [E L].
  assert (reachable c') as Hr'.
  { destruct Hr as [evs0 H]. exists (evs0 ++ evs)%list.
    clear -H Hrun. revert H. generalize initialConfig.
    induction evs0 as [|e evs0 IH]; intros c0 H; simpl in *.
    - by inversion H.
    - destruct (step c0 e); [|done]. simpl in *. by apply IH. }
  destruct (reachable_stepInRange c' Hr') as [_ Hin'].
  rewrite E, Hd. split; [split; [done|by apply Hin]|]. split; [done|].
  split; [done|]. apply Hin'; [congruence|done].
Qed.

(** Four submissions in the review of two exercises: the step index goes
    from 0 to 1 and stays there. *)
Lemma review_step_stays_in_range_witness :
  0 ≤ reviewStep (app twoExercises) ≤ lastIndex twoExercisesData
  ∧ reviewData (app (afterRun (intoReview [orderLine; payLine] ++ fourAnswers)))
    = Some twoExercisesData
  ∧ reviewStep (app twoExercises)
    ≤ reviewStep (app (afterRun (intoReview [orderLine; payLine] ++ fourAnswers)))
    ≤ lastIndex twoExercisesData.
Proof.
  apply (review_step_stays_in_range twoExercises
           (afterRun (intoReview [orderLine; payLine] ++ fourAnswers))
           twoExercisesData fourAnswers).
  - exists (intoReview [orderLine; payLine]). vm_compute. reflexivity.
  - vm_compute. reflexivity.
  - discriminate.
  - reflexivity.
  - vm_compute. reflexivity.
Defined.

(** *** The loading flag *)

Lemma handle_issue (c c' : Config) (ev : Event) :
  isSettle ev = false → handle c ev = Some c' →
  ∃ st' op, c' = invoke c (st', op)
    ∧ loading st' = match op with
                    | Some p => if usesLoading p then true else loading (app c)
                    | None => loading (app c)
                    end.
Proof.
  intros Hev H. destruct ev; try discriminate; simpl in H.
  - inversion H. by eexists _, None.
  - case_match; inversion H. by eexists _, None.
  - case_match; inversion H. by eexists _, None.
  - case_match; inversion H. by eexists _, (Some _).
  - case_match; [|done]. destruct (recommendedWords (app c) !! i); inversion H.
    by eexists _, (Some _).
  - case_match; [|done]. unfold toggleWordSelection in H.
    destruct (vocabulary (app c) !! i); inversion H. by eexists _, None.
  - case_match; [|done]. inversion H. unfold startTargetedReview.
    case_match; [by eexists _, None | by eexists _, (Some _)].
  - case_match; [|done].
    destruct (submitAnswer i k (app c)) as [st'|] eqn:Hs; [|done]. inversion H.
    apply submitAnswer_inv in Hs as (d & line & w & _ & _ & _ & _ & ->).
    eexists _, None. split; [reflexivity|].
    by destruct (answerClick_frame (reviewStep (app c)) d i line w (app c))
      as (_ & _ & _ & -> & _).
  - case_match; [|done]. destruct (reviewData (app c)); [|done]. simpl in H.
    case_match; inversion H. by eexists _, None.
  - case_match; [|done]. destruct (reviewData (app c)) as [d|]; [|done]. simpl in H.
    destruct (shownLines (app c) d !! i); [|done]. simpl in H.
    case_match; inversion H. by eexists _, (Some _).
  - case_match; [|done]. destruct (reviewData (app c)); [done|].
    inversion H. unfold chatKeyDown.
    case_match; [by eexists _, (Some _) | by eexists _, None].
  - case_match; inversion H. by eexists _, None.
  - inversion H. by eexists _, (Some _).
  - case_match; inversion H. by eexists _, None.
Qed.

Lemma step_issue (c c' : Config) (ev : Event) :
  isSettle ev = false → step c ev = Some c' →
  (∀ p, p ∈ issued c c' → usesLoading p = true → loading (app c') = true)
  ∧ ((∀ p, p ∈ issued c c' → usesLoading p = false) → loading (app c') = loading (app c)).
Proof.
  intros Hev. unfold step. destruct (handle c ev) as [c1|] eqn:Hh; [|done].
  intros [= <-]. apply (handle_issue c c1 ev Hev) in Hh as (st' & op & -> & Hl).
  unfold pageEffect.
  match goal with |- context [if ?cond then _ else _] => destruct cond end.
  - split; [done|]. intros Hno. exfalso.
    assert (usesLoading (AwaitRecommendations (nativeLang st') (level st')) = false) as Hf; [|done].
    apply Hno. unfold issued, invoke, fetchRecommendations. simpl.
    rewrite <- !app_assoc, drop_app_length. apply elem_of_app. right. constructor.
  - rewrite issued_invoke. simpl. destruct op as [p|]; simpl.
    + split.
      * intros p' Hp' Hu. apply list_elem_of_singleton in Hp' as ->.
        by rewrite Hl, Hu.
      * intros Hno. rewrite Hl, (Hno p); [done|constructor].
    + split; [|done]. intros p' Hp'. inversion Hp'.
Qed.

Lemma resume_page (b : Backend) (p : Pending) (st : AppState) :
  activePage (resume b p st).1 = activePage st
  ∨ activePage (resume b p st).1 ≠ Page.recommendation.
Proof.
  destruct p as [lang lvl|w|selected|t|history val|base64]; simpl.
  - left. by destruct (getVocabularyRecommendations b lang lvl).1.
  - destruct (getEtymology b w).1; [by right|by left].
  - destruct (getReviewDialogue b selected).1; [by right|by left].
  - by left.
  - left. by destruct (chatReply b).
  - left. by destruct (analyzeReply b).
Qed.

Lemma resume_loading (b : Backend) (p : Pending) (st : AppState) :
  loading (resume b p st).1 = if usesLoading p then false else loading st.
Proof.
  destruct p as [lang lvl|w|selected|t|history val|base64]; simpl.
  - by destruct (getVocabularyRecommendations b lang lvl).1.
  - by destruct (getEtymology b w).1.
  - by destruct (getReviewDialogue b selected).1.
  - done.
  - by destruct (chatReply b).
  - by destruct (analyzeReply b).
Qed.

Lemma step_settle (c c' : Config) (n : nat) (b : Backend) (p : Pending) :
  inflight c !! n = Some p → step c (Settle n b) = Some c' →
  c' = {| app := (resume b p (app c)).1;
          inflight := delete n (inflight c);
          unhandled := (unhandled c ++ escaped (resume b p (app c)).2)%list |}.
Proof.
  intros Hp. unfold step, handle. rewrite Hp. simpl.
  pose proof (resume_page b p (app c)) as Hpage.
  destruct (resume b p (app c)) as [st' out]. simpl in *. intros [= <-].
  destruct Hpage as [Hsame|Hother].
  - by apply pageEffect_same_page.
  - by apply pageEffect_other_page.
Qed.

(** C3, as stated, fails for the free chat and for speech synthesis:
    each is in flight here with the loading flag false. *)
Lemma chat_and_speech_in_flight_without_loading :
  (run initialConfig chatWhenIdle = Some (afterRun chatWhenIdle)
   ∧ inflight (afterRun chatWhenIdle) = [AwaitDialogueResponse [] "你好"]
   ∧ loading (app (afterRun chatWhenIdle)) = false)
  ∧ (run initialConfig listenToGreeting = Some (afterRun listenToGreeting)
     ∧ inflight (afterRun listenToGreeting) = [AwaitSpeech (Some "你好，想喝什么？")]
     ∧ loading (app (afterRun listenToGreeting)) = false).
Proof.
  split; (split; [|split]); vm_compute; reflexivity.
Qed.

(** C3, amended: the recommendation fetch, the etymology fetch, the
    review-dialogue fetch and the image analysis set the loading flag when
    their call is issued and clear it when the call settles, fulfilled or
    rejected; in between the flag stays set as long as no other of these
    four settles.  Speech synthesis and the free-chat continuation leave
    the flag as it is, when issued and when settled. *)
Theorem loading_follows_the_fetches :
  (∀ c ev c', isSettle ev = false → step c ev = Some c' →
     (∀ p, p ∈ issued c c' → usesLoading p = true → loading (app c') = true)
     ∧ ((∀ p, p ∈ issued c c' → usesLoading p = false) →
        loading (app c') = loading (app c)))
  ∧ (∀ c n b p c', inflight c !! n = Some p → step c (Settle n b) = Some c' →
     (usesLoading p = true → loading (app c') = false)
     ∧ (usesLoading p = false → loading (app c') = loading (app c)))
  ∧ (∀ c ev c', step c ev = Some c' → loading (app c) = true →
     (∀ n b p, ev = Settle n b → inflight c !! n = Some p → usesLoading p = false) →
     loading (app c') = true).
Proof.
  split; [|split].
  - intros c ev c'. apply step_issue.
  - intros c n b p c' Hp Hs. rewrite (step_settle c c' n b p Hp Hs). simpl.
    rewrite resume_loading. split; by intros ->.
  - intros c ev c' Hs Hl Hother. destruct (isSettle ev) eqn:Hev.
    + destruct ev; try discriminate.
      assert (is_Some (inflight c !! n)) as [p Hp].
      { unfold step, handle in Hs. destruct (inflight c !! n); [by eexists|done]. }
      rewrite (step_settle c c' n b p Hp Hs). simpl.
      by rewrite resume_loading, (Hother n b p eq_refl Hp).
    + destruct (step_issue c c' ev Hev Hs) as [Hset Hkeep].
      destruct (decide (Exists (λ p, usesLoading p = true) (issued c c'))) as [He|Hne].
      * apply Exists_exists in He as (p & Hp & Hu). by apply (Hset p).
      * rewrite Hkeep; [done|]. intros p Hp.
        destruct (usesLoading p) eqn:Hu; [|done]. exfalso. apply Hne.
        apply Exists_exists. by exists p.
Qed.

(** From the first render (the initial fetch in flight): opening the
    vocabulary page changes nothing; when the fetch settles the flag is
    cleared. *)
Lemma loading_follows_the_fetches_witness :
  loading (app (afterRun [Navigate Page.vocabulary])) = true
  ∧ loading (app (afterRun [Navigate Page.vocabulary; Settle 0 offline])) = false.
Proof.
  destruct loading_follows_the_fetches as (_ & Hsettle & Hkeep). split.
  - apply (Hkeep initialConfig (Navigate Page.vocabulary));
      [vm_compute; reflexivity | vm_compute; reflexivity |].
    intros n b p [=].
  - apply (Hsettle (afterRun [Navigate Page.vocabulary]) 0%nat offline
             (AwaitRecommendations "English" "HSK 3"));
      vm_compute; reflexivity.
Defined.

(** *** A gateway call that fails *)

Lemma resume_failed (b : Backend) (p : Pending) (st : AppState) :
  succeeds b p = false →
  (resume b p st).1 = (if usesLoading p then setLoading false st else st)
  ∧ ((∀ h v, p ≠ AwaitDialogueResponse h v) → (resume b p st).2 = Fulfilled tt).
Proof.
  destruct p as [lang lvl|w|selected|t|history val|base64]; simpl.
  - by destruct (getVocabularyRecommendations b lang lvl).1.
  - by destruct (getEtymology b w).1.
  - by destruct (getReviewDialogue b selected).1.
  - done.
  - destruct (chatReply b); [done|]. intros _. split; [done|].
    intros Hne. by destruct (Hne history val).
  - by destruct (analyzeReply b).
Qed.

Lemma step_settle_enabled (c : Config) (n : nat) (b : Backend) (p : Pending) :
  inflight c !! n = Some p → is_Some (step c (Settle n b)).
Proof.
  intros Hp. unfold step, handle. rewrite Hp. simpl.
  destruct (resume b p (app c)). by eexists.
Qed.

(** C4, as stated, fails for the free-chat continuation: the message is
    sent while the first recommendations are still loading and the call is
    rejected; the rejection leaves the key handler and the loading flag
    stays set. *)
Lemma chat_failure_escapes_and_keeps_loading :
  run initialConfig chatWhileLoading = Some (afterRun chatWhileLoading)
  ∧ inflight (afterRun chatWhileLoading) !! 1%nat = Some (AwaitDialogueResponse [] "你好")
  ∧ succeeds offline (AwaitDialogueResponse [] "你好") = false
  ∧ loading (app (afterRun chatWhileLoading)) = true
  ∧ ∃ c', step (afterRun chatWhileLoading) (Settle 1 offline) = Some c'
      ∧ unhandled c' = [BackendError]
      ∧ loading (app c') = true.
Proof.
  split; [vm_compute; reflexivity|]. split; [vm_compute; reflexivity|].
  split; [vm_compute; reflexivity|]. split; [vm_compute; reflexivity|].
  eexists. split; [vm_compute; reflexivity|].
  split; vm_compute; reflexivity.
Qed.

(** C4, amended: when the gateway call of a handler fails, the handler
    that drives the loading flag (recommendation fetch, etymology fetch,
    review-dialogue fetch, image analysis) clears the flag and changes no
    other state cell; the handlers of speech synthesis and of the free
    chat change no state cell at all, the loading flag included.  For
    every handler but the free chat's, nothing leaves the handler. *)
Theorem failed_call_leaves_the_view (c : Config) (n : nat) (b : Backend) (p : Pending) :
  inflight c !! n = Some p →
  succeeds b p = false →
  ∃ c', step c (Settle n b) = Some c'
    ∧ app c' = (if usesLoading p then setLoading false (app c) else app c)
    ∧ inflight c' = delete n (inflight c)
    ∧ ((∀ h v, p ≠ AwaitDialogueResponse h v) → unhandled c' = unhandled c).
Proof.
  intros Hp Hfail.
  destruct (step_settle_enabled c n b p Hp) as [c' Hs].
  exists c'. split; [exact Hs|].
  rewrite (step_settle c c' n b p Hp Hs). simpl.
  destruct (resume_failed b p (app c) Hfail) as [Hst Hout].
  split; [exact Hst|]. split; [reflexivity|].
  intros Hne. rewrite (Hout Hne). simpl. apply app_nil_r.
Qed.

(** The etymology fetch for a clicked recommendation is rejected: the
    loading flag is cleared, the page and everything else stay. *)
Lemma failed_call_leaves_the_view_witness :
  ∃ c', step (afterRun [Settle 0 recommended; ClickRecommended 0]) (Settle 0 offline) = Some c'
    ∧ app c' = (if usesLoading (AwaitEtymology "好")
                then setLoading false (app (afterRun [Settle 0 recommended; ClickRecommended 0]))
                else app (afterRun [Settle 0 recommended; ClickRecommended 0]))
    ∧ inflight c' = delete 0%nat (inflight (afterRun [Settle 0 recommended; ClickRecommended 0]))
    ∧ ((∀ h v, AwaitEtymology "好" ≠ AwaitDialogueResponse h v) →
       unhandled c' = unhandled (afterRun [Settle 0 recommended; ClickRecommended 0])).
Proof.
  apply (failed_call_leaves_the_view
           (afterRun [Settle 0 recommended; ClickRecommended 0]) 0 offline
           (AwaitEtymology "好"));
    vm_compute; reflexivity.
Defined.

End ViewFacts.

(** ** More about the gateway *)

Module GatewayLaws.
Import Gateway App Spec Scenario GatewayFacts.

(** *** Which part of an image response is used *)

Lemma lastInline_last (acc : option string) (ps : list Part) :
  lastInline acc ps =
    match last (omap inlineData ps) with
    | Some d => Some ("data:image/png;base64," ++ data d)
    | None => acc
    end.
Proof.
  revert acc. induction ps as [|p ps IH]; intros acc; simpl; [reflexivity|].
  destruct (inlineData p) as [d|]; simpl; [|apply IH].
  rewrite IH, last_cons. unfold omap.
  by destruct (last (list_omap _ _ inlineData ps)).
Qed.

(** When an image response has its first candidate, a content and a list
    of parts, the image taken from it is the inline data of the last part
    that carries some, and there is no image when no part carries any;
    the other candidates are not read. *)
Theorem image_is_the_last_inline_part (resp : MediaResponse) (c : Candidate)
    (cs : list Candidate) (ct : Content) (ps : list Part) :
  candidates resp = Some (c :: cs) →
  content c = Some ct →
  parts ct = Some ps →
  inlineImage (Fulfilled resp) =
    Fulfilled ((λ d, "data:image/png;base64," ++ data d) <$> last (omap inlineData ps)).
Proof.
  intros Hc Hct Hps. unfold inlineImage. rewrite Hc, Hct, Hps, lastInline_last.
  by destruct (last (omap inlineData ps)).
Qed.

Lemma image_is_the_last_inline_part_witness :
  inlineImage (Fulfilled twoImages) =
    Fulfilled ((λ d, "data:image/png;base64," ++ data d)
                 <$> last (omap inlineData twoImagesParts)).
Proof.
  apply (image_is_the_last_inline_part twoImages
           {| content := Some {| parts := Some twoImagesParts |} |} []
           {| parts := Some twoImagesParts |} twoImagesParts); reflexivity.
Defined.

(** *** When a fetch is fulfilled *)

(** An etymology fetch is fulfilled exactly when its primary request
    delivers a payload; a review-dialogue fetch is fulfilled exactly when
    its primary request delivers a payload that has a dialogue.  A reply
    without text counts as the empty object: the etymology fetch is then
    fulfilled with no components and no context after a single request,
    and the review-dialogue fetch is rejected with a type error. *)
Theorem fetch_fulfilled_iff (b : Backend) (w : string) (sel : list Word) :
  is_fulfilled (getEtymology b w).1 = is_fulfilled (primaryEtymology b)
  ∧ (is_fulfilled (getReviewDialogue b sel).1 = true
     ↔ ∃ d ls, primaryReview b = Fulfilled d ∧ rawDialogue d = Some ls)
  ∧ (etymologyReply b = Fulfilled None →
     getEtymology b w
       = (Fulfilled {| components := None; culturalContext := None |},
          [Sent {| model := textModel; contents := EtymologyPrompt w |}]))
  ∧ (reviewReply b = Fulfilled None →
     (getReviewDialogue b sel).1 = Rejected TypeError).
Proof.
  split; [|split; [|split]].
  - unfold getEtymology, primaryEtymology.
    destruct (etymologyReply b) as [t|e]; [|reflexivity].
    destruct (parse_or _ t) as [d|e]; [|reflexivity].
    destruct (rawComponents d) as [cs|]; [|reflexivity].
    by destruct (illustrateAll (imageReply b) 0 cs).
  - split.
    + unfold getReviewDialogue, primaryReview.
      destruct (reviewReply b) as [t|e]; [|discriminate].
      destruct (parse_or _ t) as [d|e]; [|discriminate].
      destruct (rawDialogue d) as [ls|] eqn:Hls; [|discriminate].
      intros _. by exists d, ls.
    + intros (d & ls & Hd & Hls).
      by rewrite (getReviewDialogue_delivers b sel d ls Hd Hls).
  - intros H. unfold getEtymology. by rewrite H.
  - intros H. unfold getReviewDialogue. by rewrite H.
Qed.

(** *** What a fetch sends and logs *)

Lemma sentRequests_app (l1 l2 : list Effect) :
  sentRequests (l1 ++ l2) = (sentRequests l1 ++ sentRequests l2)%list.
Proof. apply omap_app. Qed.

Lemma loggedErrors_app (l1 l2 : list Effect) :
  loggedErrors (l1 ++ l2) = (loggedErrors l1 + loggedErrors l2)%nat.
Proof. unfold loggedErrors. by rewrite List.filter_app, length_app. Qed.

Lemma failedImages_shift (img : nat → Settled MediaResponse) (n m : nat) :
  length (List.filter (λ k, negb (is_fulfilled (inlineImage (img k)))) (seq n (S m)))
  = ((if is_fulfilled (inlineImage (img n)) then 0 else 1)
     + length (List.filter (λ k, negb (is_fulfilled (inlineImage (img k)))) (seq (S n) m)))%nat.
Proof. simpl. by destruct (is_fulfilled (inlineImage (img n))). Qed.

Lemma illustrateAll_effects img n cs :
  sentRequests (illustrateAll img n cs).2 = map radicalRequest cs
  ∧ loggedErrors (illustrateAll img n cs).2
    = length (List.filter (λ k, negb (is_fulfilled (inlineImage (img k))))
                (seq n (length cs))).
Proof.
  revert n. induction cs as [|c cs IH]; intros n; [done|].
  simpl illustrateAll. change (length (c :: cs)) with (S (length cs)).
  rewrite failedImages_shift.
  destruct (IH (S n)) as [IH1 IH2].
  unfold illustrate. destruct (inlineImage (img n)) as [url|e];
    destruct (illustrateAll img (S n) cs) as [cs' e2];
    cbn [fst snd is_fulfilled] in *;
    rewrite sentRequests_app, loggedErrors_app, IH1, <- IH2; split; reflexivity.
Qed.

Lemma hintAll_effects img n ls :
  sentRequests (hintAll img n ls).2 = map hintRequest (List.filter wantsHint ls)
  ∧ loggedErrors (hintAll img n ls).2
    = length (List.filter (λ k, negb (is_fulfilled (inlineImage (img k))))
                (seq n (length (List.filter wantsHint ls)))).
Proof.
  revert n. induction ls as [|l ls IH]; intros n; [done|].
  simpl hintAll. simpl List.filter. destruct (wantsHint l).
  - change (length (l :: List.filter wantsHint ls))
      with (S (length (List.filter wantsHint ls))).
    rewrite failedImages_shift. destruct (IH (S n)) as [IH1 IH2].
    destruct (hintAll img (S n) ls) as [ls' e2].
    destruct (inlineImage (img n)) as [url|e]; cbn [fst snd is_fulfilled map] in *;
      rewrite <- IH1, <- IH2; split; reflexivity.
  - destruct (IH n) as [IH1 IH2]. by destruct (hintAll img n ls) as [ls' e2].
Qed.

(** An etymology fetch sends its text request and then, when the payload
    has components, one image request per component, in their order, each
    built from the component's own character and meaning; it logs one
    error per image request that failed.  When the primary request fails
    nothing more is sent. *)
Theorem etymology_requests (b : Backend) (w : string) :
  sentRequests (getEtymology b w).2
    = {| model := textModel; contents := EtymologyPrompt w |}
      :: match primaryEtymology b with
         | Fulfilled d => map radicalRequest (default [] (rawComponents d))
         | Rejected _ => []
         end
  ∧ loggedErrors (getEtymology b w).2
    = match primaryEtymology b with
      | Fulfilled d => failedImages (imageReply b) (length (default [] (rawComponents d)))
      | Rejected _ => 0%nat
      end.
Proof.
  unfold getEtymology, primaryEtymology, failedImages.
  destruct (etymologyReply b) as [t|e]; [|done].
  destruct (parse_or _ t) as [d|e]; [|done].
  destruct (rawComponents d) as [cs|]; [|done].
  destruct (illustrateAll_effects (imageReply b) 0 cs) as [H1 H2].
  destruct (illustrateAll (imageReply b) 0 cs) as [cs' eff]. simpl in *.
  by rewrite H1, <- H2.
Qed.

(** A review-dialogue fetch sends its text request and then one image
    request for each line that has both a blank word and a hint prompt,
    in line order, and for no other line; it logs one error per image
    request that failed.  When the primary request fails or the payload
    has no dialogue nothing more is sent. *)
Theorem review_requests (b : Backend) (sel : list Word) :
  sentRequests (getReviewDialogue b sel).2
    = {| model := textModel; contents := ReviewPrompt (wordList sel) |}
      :: match primaryReview b with
         | Fulfilled d => map hintRequest (List.filter wantsHint (default [] (rawDialogue d)))
         | Rejected _ => []
         end
  ∧ loggedErrors (getReviewDialogue b sel).2
    = match primaryReview b with
      | Fulfilled d =>
          failedImages (imageReply b)
            (length (List.filter wantsHint (default [] (rawDialogue d))))
      | Rejected _ => 0%nat
      end.
Proof.
  unfold getReviewDialogue, primaryReview, failedImages.
  destruct (reviewReply b) as [t|e]; [|done].
  destruct (parse_or _ t) as [d|e]; [|done].
  destruct (rawDialogue d) as [ls|]; [|done].
  destruct (hintAll_effects (imageReply b) 0 ls) as [H1 H2].
  destruct (hintAll (imageReply b) 0 ls) as [ls' eff]. simpl in *.
  by rewrite H1, <- H2.
Qed.

(** *** The chat request *)

(** The chat continuation sends one request whose turns are the history
    in order, followed by the new input as a user turn; a turn of the
    history keeps the role user and has the role model otherwise (the
    view's own role for a reply is ai), so every role sent is user or
    model.  The reply is handed back as it came. *)
Theorem chat_request (b : Backend) (history : list ChatTurn) (userInput : string) :
  ∃ turns,
    getDialogueResponse b history userInput
      = (chatReply b, [Sent {| model := textModel; contents := ChatContents turns |}])
    ∧ length turns = S (length history)
    ∧ last turns = Some ("user", userInput)
    ∧ map snd turns = (map turnText history ++ [userInput])%list
    ∧ Forall (λ t, t.1 = "user" ∨ t.1 = "model") turns
    ∧ ∀ k h, history !! k = Some h →
        turns !! k = Some (if bool_decide (role h = "user") then "user" else "model",
                           turnText h).
Proof.
  eexists. split; [reflexivity|].
  split; [rewrite length_app, length_map; simpl; lia|].
  split; [apply last_snoc|].
  split; [rewrite map_app, map_map; reflexivity|]. split.
  - apply Forall_app. split; [|by repeat constructor].
    apply Forall_forall. intros t Ht. apply list_elem_of_fmap in Ht as (h & -> & _).
    simpl. unfold chatRole. destruct (String.eqb (role h) "user"); auto.
  - intros k h Hk. rewrite lookup_app_l by (rewrite length_map; by eapply lookup_lt_Some).
    rewrite list_lookup_fmap, Hk. simpl. f_equal. f_equal. unfold chatRole.
    destruct (String.eqb_spec (role h) "user") as [E|E].
    + by rewrite bool_decide_eq_true_2.
    + by rewrite bool_decide_eq_false_2.
Qed.

End GatewayLaws.

(** ** More about the view state machine *)

Module ViewLaws.
Import Gateway App Render Spec Scenario GatewayFacts ViewFacts.

Lemma pageEffect_app (prev : PageType) (c : Config) :
  app (pageEffect prev c) = app c ∨ app (pageEffect prev c) = setLoading true (app c).
Proof. unfold pageEffect. case_match; [by right|by left]. Qed.

Lemma run_app (evs1 evs2 : list Event) (c c1 c2 : Config) :
  run c evs1 = Some c1 → run c1 evs2 = Some c2 → run c (evs1 ++ evs2) = Some c2.
Proof.
  revert c. induction evs1 as [|e evs1 IH]; intros c H1 H2; simpl in *.
  - by inversion H1; subst.
  - destruct (step c e); [|done]. simpl in *. by apply IH.
Qed.

(** *** The free chat *)

Lemma submitAnswer_chat (i k : nat) (st st' : AppState) :
  submitAnswer i k st = Some st' → chatHistory st' = chatHistory st.
Proof.
  intros H. apply submitAnswer_inv in H as (d & line & w & _ & _ & _ & _ & ->).
  unfold answerClick. by repeat case_match.
Qed.

Lemma resume_chat (b : Backend) (p : Pending) (st : AppState) :
  chatHistory (resume b p st).1 = chatHistory st
  ∨ ∃ h v r, p = AwaitDialogueResponse h v ∧ chatReply b = Fulfilled r
      ∧ chatHistory (resume b p st).1
        = (chatHistory st
           ++ [{| role := "ai"; turnText := if truthy r then js_str r else "" |}])%list.
Proof.
  destruct p as [lang lvl|w|selected|t|history val|base64]; simpl.
  - left. by destruct (getVocabularyRecommendations b lang lvl).1.
  - left. by destruct (getEtymology b w).1.
  - left. by destruct (getReviewDialogue b selected).1.
  - by left.
  - destruct (chatReply b) as [r|e] eqn:Hr; [|by left].
    right. by exists history, val, r.
  - left. by destruct (analyzeReply b).
Qed.

Lemma handle_chat (c c' : Config) (ev : Event) :
  handle c ev = Some c' →
  chatHistory (app c') = chatHistory (app c)
  ∨ ∃ t, chatHistory (app c') = (chatHistory (app c) ++ [t])%list
         ∧ (role t = "user" ∨ role t = "ai").
Proof.
  intros H. destruct (isSettle ev) eqn:Hev.
  - destruct ev; try discriminate. simpl in H.
    destruct (inflight c !! n) as [p|]; [|done]. simpl in H.
    pose proof (resume_chat b p (app c)) as Hr.
    destruct (resume b p (app c)) as [st' out]. inversion H. simpl in *.
    destruct Hr as [Hr|(h & v & r & _ & _ & Hr)]; [by left|].
    right. eexists. split; [exact Hr|]. by right.
  - destruct ev; try discriminate; simpl in H.
    + inversion H. by left.
    + case_match; inversion H. by left.
    + case_match; inversion H. by left.
    + case_match; inversion H. by left.
    + case_match; [|done]. destruct (recommendedWords (app c) !! i); inversion H.
      by left.
    + case_match; [|done]. unfold toggleWordSelection in H.
      destruct (vocabulary (app c) !! i); inversion H. by left.
    + case_match; [|done]. inversion H. unfold startTargetedReview.
      case_match; by left.
    + case_match; [|done].
      destruct (submitAnswer i k (app c)) as [st'|] eqn:Hs; [|done]. inversion H.
      left. by apply (submitAnswer_chat i k).
    + case_match; [|done]. destruct (reviewData (app c)); [|done]. simpl in H.
      case_match; inversion H. by left.
    + case_match; [|done]. destruct (reviewData (app c)) as [d|]; [|done]. simpl in H.
      destruct (shownLines (app c) d !! i); [|done]. simpl in H.
      case_match; inversion H. by left.
    + case_match; [|done]. destruct (reviewData (app c)); [done|].
      inversion H. unfold chatKeyDown. case_match; [|by left].
      right. eexists. split; [reflexivity|]. by left.
    + case_match; inversion H. by left.
    + inversion H. by left.
    + case_match; inversion H. by left.
Qed.

Lemma step_chat (c c' : Config) (ev : Event) :
  step c ev = Some c' →
  chatHistory (app c') = chatHistory (app c)
  ∨ ∃ t, chatHistory (app c') = (chatHistory (app c) ++ [t])%list
         ∧ (role t = "user" ∨ role t = "ai").
Proof.
  unfold step. destruct (handle c ev) as [c1|] eqn:Hh; [|done]. intros [= <-].
  assert (chatHistory (app (pageEffect (activePage (app c)) c1)) = chatHistory (app c1)) as ->.
  { by destruct (pageEffect_app (activePage (app c)) c1) as [-> | ->]. }
  by apply (handle_chat c c1 ev).
Qed.

(** Whatever happens in a session, the chat history only grows at its
    end: the history before is a prefix of the history after, and every
    turn added has the role user or the role ai.  No event edits or
    removes a turn, and leaving or entering a review keeps the history. *)
Theorem chat_history_only_grows (c c' : Config) (evs : list Event) :
  run c evs = Some c' →
  ∃ added, chatHistory (app c') = (chatHistory (app c) ++ added)%list
    ∧ Forall (λ t, role t = "user" ∨ role t = "ai") added.
Proof.
  revert c. induction evs as [|ev evs IH]; intros c H; simpl in H.
  - inversion H; subst. exists []. by rewrite app_nil_r.
  - destruct (step c ev) as [c1|] eqn:Hs; [|done]. simpl in H.
    destruct (IH c1 H) as (added & -> & Hall).
    destruct (step_chat c c1 ev Hs) as [-> | (t & -> & Ht)].
    + by exists added.
    + exists (t :: added). split; [by rewrite <- app_assoc|]. by constructor.
Qed.

Lemma chat_history_only_grows_witness :
  ∃ added, chatHistory (app (afterRun chatAnswered))
           = (chatHistory (app initialConfig) ++ added)%list
    ∧ Forall (λ t, role t = "user" ∨ role t = "ai") added.
Proof.
  apply (chat_history_only_grows initialConfig (afterRun chatAnswered) chatAnswered).
  vm_compute. reflexivity.
Defined.

(** In the free chat, the Enter key with a text in the input appends the
    user's turn at once and puts one continuation call in flight, with the
    history as it was before that turn; when the call is fulfilled next,
    one ai turn follows the user's turn, holding the reply or the empty
    text when the reply is absent.  Any other key, or Enter on an empty
    input, changes nothing and calls nothing. *)
Theorem chat_turns_in_order (c : Config) (value : string) :
  activePage (app c) = Page.dialogue →
  reviewData (app c) = None →
  value ≠ "" →
  (∃ c1, step c (ChatKey "Enter" value) = Some c1
     ∧ chatHistory (app c1)
       = (chatHistory (app c) ++ [{| role := "user"; turnText := value |}])%list
     ∧ issued c c1 = [AwaitDialogueResponse (chatHistory (app c)) value]
     ∧ ∀ b r, chatReply b = Fulfilled r →
         ∃ c2, step c1 (Settle (length (inflight c)) b) = Some c2
           ∧ chatHistory (app c2)
             = (chatHistory (app c)
                ++ [{| role := "user"; turnText := value |};
                    {| role := "ai"; turnText := if truthy r then js_str r else "" |}])%list)
  ∧ (∀ key, key ≠ "Enter" → step c (ChatKey key value) = Some c)
  ∧ (∀ key, step c (ChatKey key "") = Some c).
Proof.
  intros Hpage Hfree Hval.
  assert (onPage Page.dialogue c = true) as Hon.
  { unfold onPage. by rewrite bool_decide_eq_true_2. }
  assert (truthy (Some value) = true) as Htr.
  { simpl. destruct (String.eqb_spec value ""); [done|reflexivity]. }
  split; [|split].
  - exists (invoke c (chatKeyDown "Enter" value (app c))). split.
    { unfold step, handle. rewrite Hon, Hfree. simpl.
      by rewrite pageEffect_same_page by (unfold chatKeyDown; by case_match). }
    unfold chatKeyDown. rewrite Htr. simpl.
    split; [reflexivity|]. split; [apply issued_invoke|].
    intros b r Hr. unfold step, handle. simpl.
    rewrite lookup_app_r by lia. rewrite Nat.sub_diag. simpl. rewrite Hr. simpl.
    eexists. split; [reflexivity|].
    rewrite pageEffect_same_page by done. simpl. by rewrite <- app_assoc.
  - intros key Hkey. unfold step, handle. rewrite Hon, Hfree. simpl.
    unfold chatKeyDown. destruct (String.eqb_spec key "Enter") as [E|_]; [done|].
    simpl. rewrite invoke_none. by rewrite pageEffect_same_page.
  - intros key. unfold step, handle. rewrite Hon, Hfree. simpl.
    unfold chatKeyDown. simpl. rewrite andb_false_r.
    rewrite invoke_none. by rewrite pageEffect_same_page.
Qed.

Lemma chat_turns_in_order_witness :
  (∃ c1, step chatOpen (ChatKey "Enter" "你好") = Some c1
     ∧ chatHistory (app c1)
       = (chatHistory (app chatOpen) ++ [{| role := "user"; turnText := "你好" |}])%list
     ∧ issued chatOpen c1 = [AwaitDialogueResponse (chatHistory (app chatOpen)) "你好"]
     ∧ ∀ b r, chatReply b = Fulfilled r →
         ∃ c2, step c1 (Settle (length (inflight chatOpen)) b) = Some c2
           ∧ chatHistory (app c2)
             = (chatHistory (app chatOpen)
                ++ [{| role := "user"; turnText := "你好" |};
                    {| role := "ai"; turnText := if truthy r then js_str r else "" |}])%list)
  ∧ (∀ key, key ≠ "Enter" → step chatOpen (ChatKey key "你好") = Some chatOpen)
  ∧ (∀ key, step chatOpen (ChatKey key "") = Some chatOpen).
Proof.
  apply (chat_turns_in_order chatOpen "你好").
  - vm_compute. reflexivity.
  - vm_compute. reflexivity.
  - discriminate.
Defined.



(** *** The vocabulary book *)

Lemma sameEntry_refl (w : Word) : sameEntry w w.
Proof. by repeat split. Qed.

Lemma sameEntry_toggle (w : Word) : sameEntry w (toggleSelected w).
Proof. by repeat split. Qed.

Lemma selectedOf_insert (l : list Word) (i : nat) (w w' : Word) :
  l !! i = Some w →
  truthyb (isSelected w') = truthyb (isSelected w) →
  (truthyb (isSelected w) = true → w' = w) →
  selectedOf (<[i := w']> l) = selectedOf l.
Proof.
  revert i. induction l as [|x l IH]; intros i Hi Ht Hw; [done|].
  destruct i as [|i]; simpl in Hi.
  - inversion Hi; subst x. unfold selectedOf. simpl. rewrite Ht.
    destruct (truthyb (isSelected w)); [|done]. by rewrite Hw.
  - specialize (IH i Hi Ht Hw). unfold selectedOf in *. simpl.
    change (list_insert i w' l) with (<[i := w']> l). by rewrite IH.
Qed.

(** Ticking the box of entry [i] flips the selection of that entry and
    nothing else: the book keeps its length, every other entry and every
    other field of the entry stay the same.  Ticking the same box twice
    restores the word pool, and the whole book when the entry had a
    selection flag.  An index outside the book throws, and changes
    nothing. *)
Theorem toggle_flips_one_word (i : nat) (st : AppState) (w : Word) :
  vocabulary st !! i = Some w →
  ∃ st' st'',
    toggleWordSelection i st = Fulfilled st'
    ∧ toggleWordSelection i st' = Fulfilled st''
    ∧ length (vocabulary st') = length (vocabulary st)
    ∧ (∃ w', vocabulary st' !! i = Some w' ∧ sameEntry w w'
             ∧ truthyb (isSelected w') = negb (truthyb (isSelected w)))
    ∧ (∀ j, j ≠ i → vocabulary st' !! j = vocabulary st !! j)
    ∧ selectedOf (vocabulary st'') = selectedOf (vocabulary st)
    ∧ (is_Some (isSelected w) → vocabulary st'' = vocabulary st)
    ∧ ∀ j, (length (vocabulary st) ≤ j)%nat → toggleWordSelection j st = Rejected TypeError.
Proof.
  intros Hw. pose proof (lookup_lt_Some _ _ _ Hw) as Hlt.
  assert (toggleWordSelection i st
          = Fulfilled (setVocabulary (<[i := toggleSelected w]> (vocabulary st)) st)) as E1.
  { unfold toggleWordSelection. by rewrite Hw. }
  assert (∀ l st0, toggleWordSelection i (setVocabulary (<[i := toggleSelected w]> l) st0)
          = match l !! i with
            | Some _ => Fulfilled (setVocabulary
                          (<[i := toggleSelected (toggleSelected w)]> l)
                          (setVocabulary (<[i := toggleSelected w]> l) st0))
            | None => Rejected TypeError
            end) as E2.
  { intros l st0. unfold toggleWordSelection. simpl.
    destruct (decide (i < length l)%nat) as [Hi|Hi].
    - rewrite list_lookup_insert_eq by done.
      destruct (lookup_lt_is_Some_2 l i Hi) as [x ->]. by rewrite list_insert_insert_eq.
    - rewrite list_insert_ge by lia. by rewrite (lookup_ge_None_2 l i) by lia. }
  eexists _, _. split; [exact E1|]. split; [rewrite E2, Hw; reflexivity|].
  simpl. split; [apply length_insert|]. split.
  { exists (toggleSelected w). split; [by apply list_lookup_insert_eq|].
    split; [apply sameEntry_toggle|]. simpl. by destruct (truthyb (isSelected w)). }
  split; [intros j Hj; by apply list_lookup_insert_ne|]. split.
  { apply (selectedOf_insert _ i w); [done| |].
    - by destruct w as [? ? ? ? ? ? ? [[]|]].
    - by destruct w as [? ? ? ? ? ? ? [[]|]]. }
  split.
  { intros [x Hx]. apply list_insert_id. rewrite Hw. f_equal.
    destruct w as [? ? ? ? ? ? ? sel]. simpl in *. subst sel.
    unfold toggleSelected. simpl. by destruct x. }
  intros j Hj. unfold toggleWordSelection. by rewrite lookup_ge_None_2.
Qed.

Lemma toggle_flips_one_word_witness :
  ∃ st' st'',
    toggleWordSelection 1 initialState = Fulfilled st'
    ∧ toggleWordSelection 1 st' = Fulfilled st''
    ∧ length (vocabulary st') = length (vocabulary initialState)
    ∧ (∃ w', vocabulary st' !! 1%nat = Some w'
             ∧ sameEntry (mkWord "登机牌" "Dēng jī pái" "Boarding Pass" None 80
                            (Some "Travel") (Some false) (Some true)) w'
             ∧ truthyb (isSelected w') = negb (truthyb (Some true)))
    ∧ (∀ j, j ≠ 1%nat → vocabulary st' !! j = vocabulary initialState !! j)
    ∧ selectedOf (vocabulary st'') = selectedOf (vocabulary initialState)
    ∧ (is_Some (Some true) → vocabulary st'' = vocabulary initialState)
    ∧ ∀ j, (length (vocabulary initialState) ≤ j)%nat →
        toggleWordSelection j initialState = Rejected TypeError.
Proof.
  apply (toggle_flips_one_word 1 initialState
           (mkWord "登机牌" "Dēng jī pái" "Boarding Pass" None 80
              (Some "Travel") (Some false) (Some true))).
  reflexivity.
Defined.

Lemma toggleWordSelection_inv (i : nat) (st st' : AppState) :
  toggleWordSelection i st = Fulfilled st' →
  ∃ w, vocabulary st !! i = Some w
    ∧ st' = setVocabulary (<[i := toggleSelected w]> (vocabulary st)) st.
Proof.
  unfold toggleWordSelection. destruct (vocabulary st !! i) as [w|]; [|done].
  intros [= <-]. by exists w.
Qed.

Lemma resume_vocabulary (b : Backend) (p : Pending) (st : AppState) :
  vocabulary (resume b p st).1 = vocabulary st
  ∧ nativeLang (resume b p st).1 = nativeLang st
  ∧ level (resume b p st).1 = level st.
Proof.
  destruct p as [lang lvl|w|selected|t|history val|base64]; simpl.
  - by destruct (getVocabularyRecommendations b lang lvl).1.
  - by destruct (getEtymology b w).1.
  - by destruct (getReviewDialogue b selected).1.
  - done.
  - by destruct (chatReply b).
  - by destruct (analyzeReply b).
Qed.

Lemma submitAnswer_vocabulary (i k : nat) (st st' : AppState) :
  submitAnswer i k st = Some st' →
  vocabulary st' = vocabulary st ∧ nativeLang st' = nativeLang st ∧ level st' = level st.
Proof.
  intros H. apply submitAnswer_inv in H as (d & line & w & _ & _ & _ & _ & ->).
  unfold answerClick. by repeat case_match.
Qed.

Lemma handle_vocabulary (c c' : Config) (ev : Event) :
  handle c ev = Some c' →
  vocabulary (app c') = vocabulary (app c)
  ∨ ∃ i w, ev = ToggleWord i ∧ vocabulary (app c) !! i = Some w
      ∧ vocabulary (app c') = <[i := toggleSelected w]> (vocabulary (app c)).
Proof.
  intros H. handle_cases H; try (left; reflexivity).
  - match goal with Ht : toggleWordSelection _ _ = Fulfilled _ |- _ =>
      apply toggleWordSelection_inv in Ht as (w & Hw & ->) end.
    right. by eexists _, w.
  - left. unfold startTargetedReview. by case_match.
  - left. match goal with Hs : submitAnswer _ _ _ = Some _ |- _ =>
      destruct (submitAnswer_vocabulary _ _ _ _ Hs) as (Hv & _); exact Hv end.
  - left. unfold chatKeyDown. by case_match.
  - left. match goal with Hr : resume ?b ?p ?st = _ |- _ =>
      pose proof (resume_vocabulary b p st) as (Hv & _); rewrite Hr in Hv; exact Hv end.
Qed.

Lemma step_vocabulary (c c' : Config) (ev : Event) :
  step c ev = Some c' →
  vocabulary (app c') = vocabulary (app c)
  ∨ ∃ i w, ev = ToggleWord i ∧ vocabulary (app c) !! i = Some w
      ∧ vocabulary (app c') = <[i := toggleSelected w]> (vocabulary (app c)).
Proof.
  unfold step. destruct (handle c ev) as [c1|] eqn:Hh; [|done]. intros [= <-].
  assert (vocabulary (app (pageEffect (activePage (app c)) c1)) = vocabulary (app c1)) as ->.
  { by destruct (pageEffect_app (activePage (app c)) c1) as [-> | ->]. }
  by apply (handle_vocabulary c c1 ev).
Qed.

(** The vocabulary book of a session always holds the five seeded words,
    in their order, with their text, transcription, meaning, proficiency,
    category and favourite flag as seeded: no event adds, removes, moves
    or edits an entry, only selection flags change (and every entry keeps
    having one).  In particular a recommended word never enters the
    book, and the words sent to a review are always among the seeded
    ones. *)
Theorem vocabulary_is_the_seed (c : Config) :
  reachable c →
  Forall2 sameEntry seedVocabulary (vocabulary (app c))
  ∧ Forall (λ w, is_Some (isSelected w)) (vocabulary (app c))
  ∧ map word (selectedOf (vocabulary (app c))) ⊆ map word seedVocabulary.
Proof.
  intros [evs Hrun].
  assert (Forall2 sameEntry seedVocabulary (vocabulary (app c))
          ∧ Forall (λ w, is_Some (isSelected w)) (vocabulary (app c))) as [H1 H2].
  { revert Hrun.
    assert (Forall2 sameEntry seedVocabulary (vocabulary (app initialConfig))
            ∧ Forall (λ w, is_Some (isSelected w)) (vocabulary (app initialConfig))) as Hinit.
    { split.
      - apply Forall2_same_length_lookup. split; [done|].
        intros i x y Hx Hy. simpl in Hy. rewrite Hx in Hy. inversion Hy.
        apply sameEntry_refl.
      - repeat constructor; by eexists. }
    revert Hinit. generalize initialConfig.
    induction evs as [|ev evs IH]; intros c0 Hinv Hrun; simpl in Hrun.
    - by inversion Hrun; subst.
    - destruct (step c0 ev) as [c1|] eqn:Hs; [|done]. simpl in Hrun.
      apply (IH c1); [|done]. destruct Hinv as [Ha Hb].
      destruct (step_vocabulary c0 c1 ev Hs) as [-> | (i & w & _ & Hw & ->)]; [done|].
      split.
      + apply Forall2_same_length_lookup. split.
        { rewrite length_insert. by eapply Forall2_length. }
        intros j x y Hx Hy. destruct (decide (j = i)) as [->|Hne].
        * rewrite list_lookup_insert_eq in Hy by (by eapply lookup_lt_Some).
          inversion Hy; subst y.
          pose proof (Forall2_lookup_lr _ _ _ _ _ _ Ha Hx Hw) as Hxw.
          destruct Hxw as (? & ? & ? & ? & ? & ? & ?). by repeat split.
        * rewrite list_lookup_insert_ne in Hy by done.
          by apply (Forall2_lookup_lr _ _ _ _ _ _ Ha Hx Hy).
      + apply Forall_insert; [done|]. by eexists. }
  split; [done|]. split; [done|].
  intros x Hx. apply list_elem_of_fmap in Hx as (w & -> & Hw).
  apply selectedOf_spec in Hw as [Hw _].
  apply list_elem_of_lookup in Hw as [i Hi].
  destruct (Forall2_lookup_r _ _ _ _ _ H1 Hi) as (s0 & Hs0 & Hsame).
  destruct Hsame as (<- & _). apply list_elem_of_fmap. exists s0.
  split; [done|]. by apply list_elem_of_lookup_2 in Hs0.
Qed.

Lemma vocabulary_is_the_seed_witness :
  Forall2 sameEntry seedVocabulary
    (vocabulary (app (afterRun [Navigate Page.vocabulary; ToggleWord 1; ToggleWord 3])))
  ∧ Forall (λ w, is_Some (isSelected w))
      (vocabulary (app (afterRun [Navigate Page.vocabulary; ToggleWord 1; ToggleWord 3])))
  ∧ map word (selectedOf
                (vocabulary (app (afterRun [Navigate Page.vocabulary; ToggleWord 1; ToggleWord 3]))))
    ⊆ map word seedVocabulary.
Proof.
  apply (vocabulary_is_the_seed (afterRun [Navigate Page.vocabulary; ToggleWord 1; ToggleWord 3])).
  exists [Navigate Page.vocabulary; ToggleWord 1; ToggleWord 3]. vm_compute. reflexivity.
Defined.

(** *** The header's selectors and the page title *)

Lemma handle_selectors (c c' : Config) (ev : Event) :
  handle c ev = Some c' →
  (nativeLang (app c') = nativeLang (app c) ∨ nativeLang (app c') ∈ languages)
  ∧ (level (app c') = level (app c) ∨ level (app c') ∈ levels).
Proof.
  intros H. handle_cases H; try (split; left; reflexivity).
  - split; [right|left; reflexivity]. simpl.
    match goal with Hb : bool_decide _ = true |- _ => by apply bool_decide_eq_true in Hb end.
  - split; [left; reflexivity|right]. simpl.
    match goal with Hb : bool_decide _ = true |- _ => by apply bool_decide_eq_true in Hb end.
  - match goal with Ht : toggleWordSelection _ _ = Fulfilled _ |- _ =>
      apply toggleWordSelection_inv in Ht as (w & Hw & ->) end.
    split; left; reflexivity.
  - unfold startTargetedReview. case_match; split; left; reflexivity.
  - match goal with Hs : submitAnswer _ _ _ = Some _ |- _ =>
      destruct (submitAnswer_vocabulary _ _ _ _ Hs) as (_ & Hn & Hl) end.
    split; left; [exact Hn|exact Hl].
  - unfold chatKeyDown. case_match; split; left; reflexivity.
  - match goal with Hr : resume ?b ?p ?st = _ |- _ =>
      pose proof (resume_vocabulary b p st) as (_ & Hn & Hl); rewrite Hr in Hn, Hl end.
    split; left; [exact Hn|exact Hl].
Qed.

Lemma handle_inflight (c c' : Config) (ev : Event) :
  handle c ev = Some c' →
  (∃ n, inflight c' = delete n (inflight c))
  ∨ inflight c' = inflight c
  ∨ ∃ p, inflight c' = (inflight c ++ [p])%list
      ∧ match p with
        | AwaitRecommendations lang lvl => lang = nativeLang (app c) ∧ lvl = level (app c)
        | _ => True
        end.
Proof.
  intros H. destruct (isSettle ev) eqn:Hev.
  - destruct ev; try discriminate. simpl in H.
    destruct (inflight c !! n); [|done]. simpl in H.
    destruct (resume b p (app c)). inversion H. left. by exists n.
  - right. handle_cases H; try discriminate Hev;
      try (left; simpl; apply app_nil_r);
      try (right; eexists; split; [reflexivity|]; done).
    + unfold startTargetedReview. case_match.
      * left. simpl. apply app_nil_r.
      * right. eexists. split; [reflexivity|]. done.
    + unfold chatKeyDown. case_match.
      * right. eexists. split; [reflexivity|]. done.
      * left. simpl. apply app_nil_r.
Qed.

Lemma step_selectors (c c' : Config) (ev : Event) :
  step c ev = Some c' →
  nativeLang (app c) ∈ languages → level (app c) ∈ levels →
  Forall fromSelectors (inflight c) →
  nativeLang (app c') ∈ languages ∧ level (app c') ∈ levels
  ∧ Forall fromSelectors (inflight c').
Proof.
  unfold step. destruct (handle c ev) as [c1|] eqn:Hh; [|done]. intros [= <-] Hn Hl Hf.
  destruct (handle_selectors c c1 ev Hh) as [Hn1 Hl1].
  assert (nativeLang (app c1) ∈ languages) as Hn2 by (destruct Hn1 as [->|?]; done).
  assert (level (app c1) ∈ levels) as Hl2 by (destruct Hl1 as [->|?]; done).
  assert (Forall fromSelectors (inflight c1)) as Hf1.
  { destruct (handle_inflight c c1 ev Hh) as [[n ->]|[->|(p & -> & Hp)]]; [|done|].
    - by apply Forall_delete.
    - apply Forall_app. split; [done|]. constructor; [|constructor].
      destruct p; try done. destruct Hp as [-> ->]. done. }
  unfold pageEffect. case_match; [|done]. simpl.
  split; [done|]. split; [done|]. apply Forall_app. split; [done|].
  constructor; [by split|constructor].
Qed.

Lemma reachable_selectors (c : Config) :
  reachable c →
  nativeLang (app c) ∈ languages ∧ level (app c) ∈ levels
  ∧ Forall fromSelectors (inflight c).
Proof.
  intros [evs Hrun]. revert Hrun.
  assert (nativeLang (app initialConfig) ∈ languages ∧ level (app initialConfig) ∈ levels
          ∧ Forall fromSelectors (inflight initialConfig)) as Hinit.
  { split; [set_solver|]. split; [set_solver|]. repeat constructor; set_solver. }
  revert Hinit. generalize initialConfig.
  induction evs as [|ev evs IH]; intros c0 Hinv Hrun; simpl in Hrun.
  - by inversion Hrun; subst.
  - destruct (step c0 ev) as [c1|] eqn:Hs; [|done]. simpl in Hrun.
    apply (IH c1); [|done]. destruct Hinv as (Hn & Hl & Hf).
    by apply (step_selectors c0 c1 ev).
Qed.

(** In every state of a session the native language and the level are
    options of the header's selectors, and every recommendation call in
    flight was issued for such a language and level. *)
Theorem selectors_hold_their_options (c : Config) :
  reachable c →
  nativeLang (app c) ∈ languages
  ∧ level (app c) ∈ levels
  ∧ ∀ lang lvl, AwaitRecommendations lang lvl ∈ inflight c →
      lang ∈ languages ∧ lvl ∈ levels.
Proof.
  intros Hr. destruct (reachable_selectors c Hr) as (Hn & Hl & Hf).
  split; [done|]. split; [done|]. intros lang lvl Hin.
  by apply (proj1 (Forall_forall _ _) Hf _ Hin).
Qed.

Lemma selectors_hold_their_options_witness :
  nativeLang (app (afterRun [SelectNativeLang "French"; SelectLevel "HSK 1"; ClickRefresh]))
    ∈ languages
  ∧ level (app (afterRun [SelectNativeLang "French"; SelectLevel "HSK 1"; ClickRefresh]))
    ∈ levels
  ∧ ∀ lang lvl,
      AwaitRecommendations lang lvl
        ∈ inflight (afterRun [SelectNativeLang "French"; SelectLevel "HSK 1"; ClickRefresh]) →
      lang ∈ languages ∧ lvl ∈ levels.
Proof.
  apply (selectors_hold_their_options
           (afterRun [SelectNativeLang "French"; SelectLevel "HSK 1"; ClickRefresh])).
  exists [SelectNativeLang "French"; SelectLevel "HSK 1"; ClickRefresh].
  vm_compute. reflexivity.
Defined.

Lemma title_of_language (lang : string) (st : AppState) :
  nativeLang st = lang → lang ∈ languages →
  ∃ titles, TITLE_TRANSLATIONS !! lang = Some titles
    ∧ pageTitle st = titles (activePage st) ∧ pageTitle st ≠ "".
Proof.
  intros Hl Hin. unfold pageTitle. rewrite Hl. unfold languages in Hin.
  repeat (apply elem_of_cons in Hin as [-> | Hin]);
    [| | | |by apply elem_of_nil in Hin].
  - exists englishTitles. split; [by vm_compute|]. by destruct (activePage st).
  - exists germanTitles. split; [by vm_compute|]. by destruct (activePage st).
  - exists frenchTitles. split; [by vm_compute|]. by destruct (activePage st).
  - exists japaneseTitles. split; [by vm_compute|]. by destruct (activePage st).
Qed.

(** Every state of a session has a subtitle for its page: the table of
    translations has an entry for the selected language and that entry is
    not empty for any of the six pages, so the fallback to the empty text
    is never taken.  For a language outside the table the subtitle is
    empty. *)
Theorem page_title_is_defined (c : Config) :
  reachable c →
  (∃ titles, TITLE_TRANSLATIONS !! nativeLang (app c) = Some titles
     ∧ pageTitle (app c) = titles (activePage (app c))
     ∧ pageTitle (app c) ≠ "")
  ∧ ∀ st, nativeLang st ∉ languages → pageTitle st = "".
Proof.
  intros Hr. destruct (reachable_selectors c Hr) as (Hn & _). split.
  - by apply (title_of_language (nativeLang (app c))).
  - intros st Hout. unfold pageTitle.
    destruct (TITLE_TRANSLATIONS !! nativeLang st) as [t|] eqn:Ht; [|done].
    exfalso. apply Hout. apply elem_of_dom_2 in Ht.
    assert (dom TITLE_TRANSLATIONS = list_to_set languages) as Hdom.
    { unfold TITLE_TRANSLATIONS. by rewrite dom_list_to_map_L. }
    rewrite Hdom in Ht. by apply elem_of_list_to_set in Ht.
Qed.

Lemma page_title_is_defined_witness :
  (∃ titles,
     TITLE_TRANSLATIONS
       !! nativeLang (app (afterRun [SelectNativeLang "Japanese"; Navigate Page.dialogue]))
     = Some titles
     ∧ pageTitle (app (afterRun [SelectNativeLang "Japanese"; Navigate Page.dialogue]))
       = titles (activePage (app (afterRun [SelectNativeLang "Japanese"; Navigate Page.dialogue])))
     ∧ pageTitle (app (afterRun [SelectNativeLang "Japanese"; Navigate Page.dialogue])) ≠ "")
  ∧ ∀ st, nativeLang st ∉ languages → pageTitle st = "".
Proof.
  apply (page_title_is_defined (afterRun [SelectNativeLang "Japanese"; Navigate Page.dialogue])).
  exists [SelectNativeLang "Japanese"; Navigate Page.dialogue]. vm_compute. reflexivity.
Defined.

(** The recommendation page and the vocabulary page colour a proficiency
    score alike, yellow below 50 and green above, except at exactly 50:
    there the recommendation page draws it yellow and the vocabulary page
    green. *)
Theorem tones_differ_at_fifty (w : Word) :
  (proficiency w < 50 → recommendationTone w = Yellow ∧ vocabularyTone w = Yellow)
  ∧ (50 < proficiency w → recommendationTone w = Green ∧ vocabularyTone w = Green)
  ∧ (proficiency w = 50 → recommendationTone w = Yellow ∧ vocabularyTone w = Green)
  ∧ (recommendationTone w = vocabularyTone w ↔ proficiency w ≠ 50).
Proof.
  unfold recommendationTone, vocabularyTone.
  destruct (Z.gtb_spec (proficiency w) 50), (Z.ltb_spec (proficiency w) 50);
    repeat split; intros; try lia; try done.
Qed.

(** *** Navigation and calls in flight *)

(** A click in the bottom navigation always opens the page clicked.  It
    issues a call in one case only: the recommendation page is opened
    from another page while the list of recommendations is empty; the
    recommendations are then fetched for the current language and level
    and the loading flag is set.  In every other case nothing is fetched
    and nothing but the page changes. *)
Theorem navigation_fetches_when_needed (c : Config) (p : PageType) :
  ∃ c', step c (Navigate p) = Some c'
    ∧ activePage (app c') = p
    ∧ (p = Page.recommendation ∧ activePage (app c) ≠ Page.recommendation
       ∧ recommendedWords (app c) = [] →
       issued c c' = [AwaitRecommendations (nativeLang (app c)) (level (app c))]
       ∧ app c' = setLoading true (setActivePage p (app c)))
    ∧ (p ≠ Page.recommendation ∨ activePage (app c) = Page.recommendation
       ∨ recommendedWords (app c) ≠ [] →
       issued c c' = [] ∧ app c' = setActivePage p (app c)).
Proof.
  unfold step, handle. simpl. eexists. split; [reflexivity|].
  unfold pageEffect. simpl.
  destruct (bool_decide_reflect (p ≠ activePage (app c))) as [Hne|Heq];
    destruct (bool_decide_reflect (p = Page.recommendation)) as [Hp|Hp];
    destruct (recommendedWords (app c)) as [|x l] eqn:Hw; simpl;
    (split; [reflexivity|]); split.
  all: try (intros (? & ? & ?); first [congruence | exfalso; apply Heq; congruence]).
  all: try (intros _; split; [|reflexivity]; unfold issued; simpl;
            rewrite ?app_nil_r, ?drop_app_length; apply drop_all || reflexivity).
  all: try (intros [?|[?|?]]; first [congruence | exfalso; apply Hne; congruence]).
Qed.

(** The loading flag is one boolean for all fetches: when one of them
    settles, the flag is cleared even though another call is still in
    flight, and that call stays in flight. *)
Theorem loading_cleared_while_another_call_runs (c : Config) (n m : nat) (b : Backend)
    (p q : Pending) :
  inflight c !! n = Some p →
  inflight c !! m = Some q →
  n ≠ m →
  usesLoading p = true →
  ∃ c', step c (Settle n b) = Some c'
    ∧ loading (app c') = false
    ∧ q ∈ inflight c'
    ∧ length (inflight c') = pred (length (inflight c)).
Proof.
  intros Hp Hq Hnm Hu. destruct (step_settle_enabled c n b p Hp) as [c' Hs].
  exists c'. split; [exact Hs|]. rewrite (step_settle c c' n b p Hp Hs). simpl.
  rewrite resume_loading, Hu. split; [done|]. split.
  - apply list_elem_of_lookup.
    destruct (decide (m < n)%nat) as [Hlt|Hge].
    + exists m. by rewrite list_lookup_delete_lt.
    + exists (pred m). rewrite list_lookup_delete_ge by lia.
      by replace (S (pred m)) with m by lia.
  - rewrite length_delete; [lia|by eexists].
Qed.

Lemma loading_cleared_while_another_call_runs_witness :
  ∃ c', step (afterRun [ClickRefresh]) (Settle 0 offline) = Some c'
    ∧ loading (app c') = false
    ∧ AwaitRecommendations "English" "HSK 3" ∈ inflight c'
    ∧ length (inflight c') = pred (length (inflight (afterRun [ClickRefresh]))).
Proof.
  apply (loading_cleared_while_another_call_runs (afterRun [ClickRefresh]) 0 1 offline
           (AwaitRecommendations "English" "HSK 3") (AwaitRecommendations "English" "HSK 3"));
    first [by vm_compute | lia].
Defined.

(** Nothing cancels a call: whatever page the user has moved to in the
    meantime, a fulfilled etymology fetch replaces the current etymology
    by its result for the word it was issued for, opens the etymology
    page and clears the loading flag; a rejected one leaves the page and
    the current etymology alone. *)
Theorem late_etymology_takes_the_page (c : Config) (n : nat) (b : Backend) (w : string) :
  inflight c !! n = Some (AwaitEtymology w) →
  ∃ c', step c (Settle n b) = Some c'
    ∧ loading (app c') = false
    ∧ match (getEtymology b w).1 with
      | Fulfilled d =>
          activePage (app c') = Page.etymology
          ∧ currentEtymology (app c') = Some (w, d)
      | Rejected _ =>
          activePage (app c') = activePage (app c)
          ∧ currentEtymology (app c') = currentEtymology (app c)
      end.
Proof.
  intros Hp. destruct (step_settle_enabled c n b _ Hp) as [c' Hs].
  exists c'. split; [exact Hs|]. rewrite (step_settle c c' n b _ Hp Hs). simpl.
  by destruct (getEtymology b w).1.
Qed.

(** The word 好 is clicked, the user opens the vocabulary page, and the
    etymology arrives. *)
Lemma late_etymology_takes_the_page_witness :
  activePage (app (afterRun [Settle 0 recommended; ClickRecommended 0; Navigate Page.vocabulary]))
    = Page.vocabulary
  ∧ ∃ c', step (afterRun [Settle 0 recommended; ClickRecommended 0; Navigate Page.vocabulary])
            (Settle 0 (cafe [])) = Some c'
    ∧ loading (app c') = false
    ∧ match (getEtymology (cafe []) "好").1 with
      | Fulfilled d =>
          activePage (app c') = Page.etymology
          ∧ currentEtymology (app c') = Some ("好", d)
      | Rejected _ =>
          activePage (app c')
            = activePage (app (afterRun [Settle 0 recommended; ClickRecommended 0;
                                         Navigate Page.vocabulary]))
          ∧ currentEtymology (app c')
            = currentEtymology (app (afterRun [Settle 0 recommended; ClickRecommended 0;
                                               Navigate Page.vocabulary]))
      end.
Proof.
  split; [by vm_compute|].
  apply (late_etymology_takes_the_page
           (afterRun [Settle 0 recommended; ClickRecommended 0; Navigate Page.vocabulary])
           0 (cafe []) "好").
  by vm_compute.
Defined.

(** *** The course of a review *)

Lemma resume_review (b : Backend) (p : Pending) (st : AppState) :
  sameReview st (resume b p st).1
  ∨ ∃ sel d, p = AwaitReviewDialogue sel
      ∧ (getReviewDialogue b sel).1 = Fulfilled d
      ∧ reviewData (resume b p st).1 = Some d
      ∧ reviewAnswers (resume b p st).1 = ∅
      ∧ reviewStep (resume b p st).1 = 0.
Proof.
  destruct p as [lang lvl|w|selected|t|history val|base64]; simpl.
  - left. by destruct (getVocabularyRecommendations b lang lvl).1.
  - left. by destruct (getEtymology b w).1.
  - destruct (getReviewDialogue b selected).1 as [d|e] eqn:Hd; [|by left].
    right. by exists selected, d.
  - by left.
  - left. by destruct (chatReply b).
  - left. by destruct (analyzeReply b).
Qed.

(** What an event can do to the review: nothing, record an answer, leave
    the review from its last line, or start a review over. *)
Lemma handle_review (c c' : Config) (ev : Event) :
  handle c ev = Some c' →
  sameReview (app c) (app c')
  ∨ (∃ i k, ev = ClickAnswer i k ∧ submitAnswer i k (app c) = Some (app c'))
  ∨ (ev = ClickExitReview
     ∧ ∃ d, reviewData (app c) = Some d ∧ reviewStep (app c) = lastIndex d
         ∧ app c' = setReviewData None (app c))
  ∨ (∃ n b sel d, ev = Settle n b
       ∧ inflight c !! n = Some (AwaitReviewDialogue sel)
       ∧ (getReviewDialogue b sel).1 = Fulfilled d
       ∧ reviewData (app c') = Some d
       ∧ reviewAnswers (app c') = ∅
       ∧ reviewStep (app c') = 0).
Proof.
  intros H. handle_cases H; try (left; by repeat split).
  - match goal with Ht : toggleWordSelection _ _ = Fulfilled _ |- _ =>
      apply toggleWordSelection_inv in Ht as (w & Hw & ->) end.
    left. by repeat split.
  - left. unfold startTargetedReview. case_match; by repeat split.
  - right. left. by eexists _, _.
  - right. right. left. split; [done|]. eexists. split; [done|].
    split; [|done]. unfold lastIndex.
    match goal with Hz : (_ =? _) = true |- _ => by apply Z.eqb_eq in Hz end.
  - left. unfold chatKeyDown. case_match; by repeat split.
  - match goal with Hr : resume ?b ?p ?st = _, Hp : inflight _ !! _ = Some ?p |- _ =>
      pose proof (resume_review b p st) as Hrr; rewrite Hr in Hrr; simpl in Hrr;
      destruct Hrr as [Hrr|(sel & d & -> & Hd & H1 & H2 & H3)];
      [by left | right; right; right; by eexists _, _, sel, d]
    end.
Qed.

Lemma step_review (c c' : Config) (ev : Event) :
  step c ev = Some c' →
  sameReview (app c) (app c')
  ∨ (∃ i k st', ev = ClickAnswer i k ∧ submitAnswer i k (app c) = Some st'
       ∧ sameReview st' (app c'))
  ∨ (ev = ClickExitReview
     ∧ ∃ d, reviewData (app c) = Some d ∧ reviewStep (app c) = lastIndex d
         ∧ sameReview (setReviewData None (app c)) (app c'))
  ∨ (∃ n b sel d, ev = Settle n b
       ∧ inflight c !! n = Some (AwaitReviewDialogue sel)
       ∧ (getReviewDialogue b sel).1 = Fulfilled d
       ∧ reviewData (app c') = Some d
       ∧ reviewAnswers (app c') = ∅
       ∧ reviewStep (app c') = 0).
Proof.
  unfold step. destruct (handle c ev) as [c1|] eqn:Hh; [|done]. intros [= <-].
  assert (sameReview (app c1) (app (pageEffect (activePage (app c)) c1))) as (E1 & E2 & E3).
  { destruct (pageEffect_app (activePage (app c)) c1) as [-> | ->]; by repeat split. }
  destruct (handle_review c c1 ev Hh)
    as [(H1 & H2 & H3)|[(i & k & -> & Hs)|[(-> & d & Hd & Hl & Happ)|
        (n & b & sel & d & -> & Hp & Hd & H1 & H2 & H3)]]].
  - left. unfold sameReview. by rewrite E1, E2, E3.
  - right. left. exists i, k, (app c1). by repeat split.
  - right. right. left. split; [done|]. exists d. rewrite <- Happ. by repeat split.
  - right. right. right. exists n, b, sel, d. rewrite E1, E2, E3. by repeat split.
Qed.

Lemma shownLines_lookup (st : AppState) (d : ReviewData) (i : nat) (line : Line) :
  0 ≤ reviewStep st →
  shownLines st d !! i = Some line →
  dialogue d !! i = Some line ∧ Z.of_nat i ≤ reviewStep st.
Proof.
  intros H0. unfold shownLines, slice0.
  destruct (Z.ltb_spec (reviewStep st + 1) 0) as [?|_]; [lia|].
  intros H. apply lookup_take_Some in H as [H Hlt]. split; [done|lia].
Qed.

(** The review-exit button exists only on the last line of a review: a
    click on it is possible only on the dialogue page with the step index
    on the last index, and it discards the review data and nothing else
    (answers, step index and chat history stay).  A review whose dialogue
    is empty has no last line: it cannot be left through the button. *)
Theorem exit_only_on_last_line (c : Config) :
  reachable c →
  (∀ c', step c ClickExitReview = Some c' →
     ∃ d, activePage (app c) = Page.dialogue
       ∧ reviewData (app c) = Some d
       ∧ dialogue d ≠ []
       ∧ reviewStep (app c) = lastIndex d
       ∧ app c' = setReviewData None (app c)
       ∧ inflight c' = inflight c)
  ∧ (∀ d, reviewData (app c) = Some d → dialogue d = [] →
     step c ClickExitReview = None).
Proof.
  intros Hr. destruct (reachable_stepInRange c Hr) as [H0 _]. split.
  - intros c'. unfold step, handle, onPage.
    destruct (bool_decide_reflect (activePage (app c) = Page.dialogue)) as [Hp|]; [|done].
    destruct (reviewData (app c)) as [d|]; [|done]. simpl.
    destruct (Z.eqb_spec (reviewStep (app c)) (Z.of_nat (length (dialogue d)) - 1))
      as [Hl|]; [|done].
    simpl. rewrite pageEffect_same_page by done. intros [= <-].
    exists d. split; [done|]. split; [done|]. split.
    { intros Hnil. rewrite Hnil in Hl. simpl in Hl. lia. }
    split; [done|]. split; [done|]. simpl. apply app_nil_r.
  - intros d Hd Hnil. unfold step, handle. rewrite Hd. simpl. rewrite Hnil. simpl.
    destruct (onPage Page.dialogue c); [|done].
    destruct (Z.eqb_spec (reviewStep (app c)) (Z.of_nat 0 - 1)); [lia|done].
Qed.

Lemma exit_only_on_last_line_witness :
  (∀ c', step (afterRun (intoReview [orderLine])) ClickExitReview = Some c' →
     ∃ d, activePage (app (afterRun (intoReview [orderLine]))) = Page.dialogue
       ∧ reviewData (app (afterRun (intoReview [orderLine]))) = Some d
       ∧ dialogue d ≠ []
       ∧ reviewStep (app (afterRun (intoReview [orderLine]))) = lastIndex d
       ∧ app c' = setReviewData None (app (afterRun (intoReview [orderLine])))
       ∧ inflight c' = inflight (afterRun (intoReview [orderLine])))
  ∧ (∀ d, reviewData (app (afterRun (intoReview [orderLine]))) = Some d → dialogue d = [] →
     step (afterRun (intoReview [orderLine])) ClickExitReview = None).
Proof.
  apply (exit_only_on_last_line (afterRun (intoReview [orderLine]))).
  exists (intoReview [orderLine]). by vm_compute.
Defined.

(** In a review the lines drawn are the first [reviewStep + 1] lines of
    the dialogue, never more than the dialogue has; the completion banner
    is drawn exactly when all lines are drawn. *)
Theorem shown_lines_follow_the_step (c : Config) (d : ReviewData) :
  reachable c →
  reviewData (app c) = Some d →
  dialogue d ≠ [] →
  shownLines (app c) d = take (S (Z.to_nat (reviewStep (app c)))) (dialogue d)
  ∧ length (shownLines (app c) d) = S (Z.to_nat (reviewStep (app c)))
  ∧ (completed (app c) d = true ↔ shownLines (app c) d = dialogue d).
Proof.
  intros Hr Hd Hne. destruct (reachable_stepInRange c Hr) as [H0 Hin].
  specialize (Hin d Hd Hne). unfold lastIndex in Hin.
  assert (shownLines (app c) d = take (S (Z.to_nat (reviewStep (app c)))) (dialogue d)) as E.
  { unfold shownLines, slice0.
    destruct (Z.ltb_spec (reviewStep (app c) + 1) 0) as [?|_]; [lia|].
    f_equal. lia. }
  split; [exact E|]. rewrite E, length_take. split; [lia|].
  unfold completed. rewrite Z.eqb_eq. split.
  - intros Hl. apply take_ge. lia.
  - intros Ht. apply (f_equal length) in Ht. rewrite length_take in Ht. lia.
Qed.

Lemma shown_lines_follow_the_step_witness :
  shownLines (app twoExercises) twoExercisesData
    = take (S (Z.to_nat (reviewStep (app twoExercises)))) (dialogue twoExercisesData)
  ∧ length (shownLines (app twoExercises) twoExercisesData)
    = S (Z.to_nat (reviewStep (app twoExercises)))
  ∧ (completed (app twoExercises) twoExercisesData = true
     ↔ shownLines (app twoExercises) twoExercisesData = dialogue twoExercisesData).
Proof.
  apply (shown_lines_follow_the_step twoExercises twoExercisesData).
  - exists (intoReview [orderLine; payLine]). by vm_compute.
  - by vm_compute.
  - discriminate.
Defined.

Lemma submitAnswer_first_line (st : AppState) (d : ReviewData) (line : Line) (i k : nat) :
  reviewData st = Some d → reviewStep st = 0 →
  dialogue d !! 0%nat = Some line → isExercise line = false →
  submitAnswer i k st = None.
Proof.
  intros Hd H0 Hl He. destruct (submitAnswer i k st) as [st'|] eqn:Hs; [|done].
  apply submitAnswer_inv in Hs as (d' & line' & w & Hd' & Hl' & _ & He' & _).
  rewrite Hd in Hd'. inversion Hd'; subst d'.
  apply shownLines_lookup in Hl' as [Hl' Hi]; [|lia].
  assert (i = 0%nat) as -> by lia. congruence.
Qed.

(** A review whose first line is not an exercise (a line of the
    assistant, or a user line without a blank word) never gets past that
    line: at step 0 only the first line is drawn, it has no answer
    buttons, and in a dialogue of two lines or more there is no exit
    button either.  Whatever the user does, the step index stays 0 and
    the review stays open until a new review dialogue is delivered. *)
Theorem review_stalls_on_a_first_line_without_exercise (c c' : Config) (d : ReviewData)
    (line : Line) (evs : list Event) :
  reviewData (app c) = Some d →
  reviewStep (app c) = 0 →
  dialogue d !! 0%nat = Some line →
  isExercise line = false →
  (2 ≤ length (dialogue d))%nat →
  forallb deliversNoReview evs = true →
  run c evs = Some c' →
  reviewData (app c') = Some d
  ∧ reviewStep (app c') = 0
  ∧ reviewAnswers (app c') = reviewAnswers (app c)
  ∧ ∀ i k, submitAnswer i k (app c') = None.
Proof.
  intros Hd H0 Hl He Hlen Hall Hrun.
  assert (reviewData (app c') = Some d ∧ reviewStep (app c') = 0
          ∧ reviewAnswers (app c') = reviewAnswers (app c)) as (E1 & E2 & E3).
  { revert c Hd H0 Hall Hrun. induction evs as [|ev evs IH];
      intros c Hd H0 Hall Hrun; simpl in *.
    - by inversion Hrun; subst.
    - apply andb_prop in Hall as [Hev Hall].
      destruct (step c ev) as [c1|] eqn:Hs; [|done]. simpl in Hrun.
      assert (sameReview (app c) (app c1)) as (S1 & S2 & S3).
      { destruct (step_review c c1 ev Hs)
          as [Hsame|[(i & k & st' & -> & Hsub & _)|[(-> & d' & Hd' & Hlast & _)|
              (n & b & sel & d' & -> & Hp & Hd' & _)]]].
        - exact Hsame.
        - by rewrite (submitAnswer_first_line (app c) d line i k) in Hsub.
        - rewrite Hd in Hd'. inversion Hd'; subst d'. unfold lastIndex in Hlast. lia.
        - exfalso. simpl in Hev.
          assert (is_fulfilled (getReviewDialogue b sel).1 = true) as Hf by (by rewrite Hd').
          revert Hf Hev. unfold getReviewDialogue, primaryReview.
          destruct (reviewReply b) as [t|e]; [|done].
          by destruct (parse_or _ t). }
      destruct (IH c1) as (E1 & E2 & E3); [congruence|congruence|done|done|].
      split; [done|]. split; [done|]. congruence. }
  split; [done|]. split; [done|]. split; [done|].
  intros i k. by apply (submitAnswer_first_line (app c') d line i k).
Qed.

Lemma review_stalls_on_a_first_line_without_exercise_witness :
  reviewData (app (afterRun (intoReview [greetLine; orderLine] ++ restless))) = Some greetedData
  ∧ reviewStep (app (afterRun (intoReview [greetLine; orderLine] ++ restless))) = 0
  ∧ reviewAnswers (app (afterRun (intoReview [greetLine; orderLine] ++ restless)))
    = reviewAnswers (app greetedReview)
  ∧ ∀ i k,
      submitAnswer i k (app (afterRun (intoReview [greetLine; orderLine] ++ restless))) = None.
Proof.
  apply (review_stalls_on_a_first_line_without_exercise greetedReview
           (afterRun (intoReview [greetLine; orderLine] ++ restless))
           greetedData (plainLine greetLine None) restless).
  - by vm_compute.
  - by vm_compute.
  - reflexivity.
  - reflexivity.
  - simpl. lia.
  - reflexivity.
  - by vm_compute.
Defined.

Lemma step_answers (c c' : Config) (ev : Event) :
  step c ev = Some c' →
  stepInRange (app c) →
  (∀ d, reviewData (app c) = Some d → ∀ i a, reviewAnswers (app c) !! i = Some a →
     Z.of_nat i ≤ reviewStep (app c)
     ∧ ∃ line, dialogue d !! i = Some line ∧ isExercise line = true) →
  ∀ d, reviewData (app c') = Some d → ∀ i a, reviewAnswers (app c') !! i = Some a →
    Z.of_nat i ≤ reviewStep (app c')
    ∧ ∃ line, dialogue d !! i = Some line ∧ isExercise line = true.
Proof.
  intros Hs [H0 _] Hinv d Hd i a Ha.
  destruct (step_review c c' ev Hs)
    as [(S1 & S2 & S3)|[(j & k & st' & -> & Hsub & (S1 & S2 & S3))|
        [(-> & d' & Hd' & Hlast & (S1 & S2 & S3))|
         (n & b & sel & d' & -> & Hp & Hd' & H1 & H2 & H3)]]].
  - rewrite S1 in Hd. rewrite S2 in Ha. rewrite S3. by apply (Hinv d Hd i a).
  - rewrite S1 in Hd. rewrite S2 in Ha. rewrite S3.
    destruct (submitAnswer_stepInRange j k (app c) st' Hsub) as (Erd & Hmono & _).
    rewrite Erd in Hd.
    apply submitAnswer_inv in Hsub as (d0 & line & w & Hd0 & Hl & _ & He & ->).
    rewrite Hd in Hd0. inversion Hd0; subst d0.
    destruct (answerClick_frame (reviewStep (app c)) d j line w (app c)) as (_ & Ea & _).
    rewrite Ea in Ha. apply shownLines_lookup in Hl as [Hl Hj]; [|done].
    destruct (decide (i = j)) as [->|Hne].
    + split; [lia|]. by exists line.
    + rewrite lookup_insert_ne in Ha by done.
      destruct (Hinv d Hd i a Ha) as [Hi Hline]. split; [lia|done].
  - rewrite S1 in Hd. simpl in Hd. discriminate.
  - rewrite H2 in Ha. by rewrite lookup_empty in Ha.
Qed.

(** In a review, an answer is only ever recorded for a line that has
    been drawn and is an exercise: every key of the answer mapping is the
    index of a user line with a blank word, at or before the step index.
    A new review starts with no answer recorded. *)
Theorem answers_belong_to_shown_exercises (c : Config) (d : ReviewData) (i : nat)
    (a : string) :
  reachable c →
  reviewData (app c) = Some d →
  reviewAnswers (app c) !! i = Some a →
  Z.of_nat i ≤ reviewStep (app c)
  ∧ ∃ line, dialogue d !! i = Some line
      ∧ speaker line = Some "User" ∧ truthy (blankWord line) = true.
Proof.
  intros [evs Hrun] Hd Ha.
  assert (stepInRange (app c)
          ∧ ∀ d, reviewData (app c) = Some d → ∀ i a, reviewAnswers (app c) !! i = Some a →
              Z.of_nat i ≤ reviewStep (app c)
              ∧ ∃ line, dialogue d !! i = Some line ∧ isExercise line = true) as [_ Hinv].
  { clear d i a Hd Ha. revert Hrun.
    assert (stepInRange (app initialConfig)
            ∧ ∀ d, reviewData (app initialConfig) = Some d →
                ∀ i a, reviewAnswers (app initialConfig) !! i = Some a →
                Z.of_nat i ≤ reviewStep (app initialConfig)
                ∧ ∃ line, dialogue d !! i = Some line ∧ isExercise line = true) as Hinit.
    { split; [split; [done|by intros d [=]]|by intros d [=]]. }
    revert Hinit. generalize initialConfig.
    induction evs as [|ev evs IH]; intros c0 Hinv Hrun; simpl in Hrun.
    - by inversion Hrun; subst.
    - destruct (step c0 ev) as [c1|] eqn:Hs; [|done]. simpl in Hrun.
      apply (IH c1); [|done]. destruct Hinv as [Hrange Hans]. split.
      + by apply (step_stepInRange c0 c1 ev).
      + by apply (step_answers c0 c1 ev). }
  destruct (Hinv d Hd i a Ha) as (Hi & line & Hl & He).
  split; [done|]. exists line. split; [done|].
  unfold isExercise in He. apply andb_prop in He as [Hu Hb].
  split; [by apply bool_decide_eq_true in Hu|done].
Qed.

Lemma answers_belong_to_shown_exercises_witness :
  Z.of_nat 0 ≤ reviewStep (app (afterRun (intoReview [orderLine; payLine] ++ fourAnswers)))
  ∧ ∃ line, dialogue twoExercisesData !! 0%nat = Some line
      ∧ speaker line = Some "User" ∧ truthy (blankWord line) = true.
Proof.
  apply (answers_belong_to_shown_exercises
           (afterRun (intoReview [orderLine; payLine] ++ fourAnswers))
           twoExercisesData 0 "咖啡").
  - exists (intoReview [orderLine; payLine] ++ fourAnswers)%list. by vm_compute.
  - by vm_compute.
  - by vm_compute.
Defined.

(** *** The uploaded image *)

Lemma splitOn_nonempty (sep : Ascii.ascii) (s : string) : splitOn sep s ≠ [].
Proof.
  destruct s as [|c s]; simpl; [done|].
  destruct (Ascii.eqb c sep); [done|]. by destruct (splitOn sep s).
Qed.

Lemma splitOn_absent (sep : Ascii.ascii) (s : string) :
  occurs sep s = false → splitOn sep s = [s].
Proof.
  induction s as [|c s IH]; simpl; [done|].
  destruct (Ascii.eqb c sep); [done|]. simpl. intros H. by rewrite (IH H).
Qed.

Lemma splitOn_first (sep : Ascii.ascii) (a b : string) :
  occurs sep a = false →
  splitOn sep (String.append a (String sep b)) = a :: splitOn sep b.
Proof.
  induction a as [|c a IH]; simpl.
  - intros _. by rewrite Ascii.eqb_refl.
  - destruct (Ascii.eqb c sep); [done|]. simpl. intros H. by rewrite (IH H).
Qed.

Lemma splitOn_concat (sep : Ascii.ascii) (s : string) :
  String.concat (String sep EmptyString) (splitOn sep s) = s.
Proof.
  induction s as [|c s IH]; simpl; [done|].
  destruct (Ascii.eqb_spec c sep) as [->|Hne].
  - pose proof (splitOn_nonempty sep s) as Hn.
    simpl. destruct (splitOn sep s) as [|x l]; [done|]. by rewrite IH.
  - pose proof (splitOn_nonempty sep s) as Hn.
    destruct (splitOn sep s) as [|x l]; [done|].
    simpl in *. destruct l as [|y l]; simpl in *; by rewrite <- IH.
Qed.

(** When a file has been read as a data URL, the image is shown at once
    and the loading flag is set; what is sent for analysis is the part of
    the URL between its first and its second comma: the payload of a URL
    with one comma, and nothing (undefined) for a text without comma.
    Splitting loses nothing: the pieces joined by commas are the URL. *)
Theorem upload_sends_what_follows_the_comma (result : string) (st : AppState) :
  (∃ base64, handleImageUpload result st
     = (setLoading true (setCapturedImage (Some result) st),
        Some (AwaitAnalyzeImage base64)))
  ∧ (∀ header payload,
       result = String.append header (String ","%char payload) →
       occurs ","%char header = false → occurs ","%char payload = false →
       (handleImageUpload result st).2 = Some (AwaitAnalyzeImage (Some payload)))
  ∧ (occurs ","%char result = false →
     (handleImageUpload result st).2 = Some (AwaitAnalyzeImage None))
  ∧ String.concat "," (splitOn ","%char result) = result.
Proof.
  split; [by eexists|]. split; [|split].
  - intros header payload -> Hh Hp. unfold handleImageUpload. simpl.
    by rewrite (splitOn_first _ _ _ Hh), (splitOn_absent _ _ Hp).
  - intros Hr. unfold handleImageUpload. simpl. by rewrite (splitOn_absent _ _ Hr).
  - apply splitOn_concat.
Qed.

Lemma upload_sends_what_follows_the_comma_witness :
  (handleImageUpload "data:image/png;base64,iVBORw0KGgo=" initialState).2
    = Some (AwaitAnalyzeImage (Some "iVBORw0KGgo="))
  ∧ (handleImageUpload "no comma here" initialState).2 = Some (AwaitAnalyzeImage None).
Proof.
  split.
  - destruct (upload_sends_what_follows_the_comma
                "data:image/png;base64,iVBORw0KGgo=" initialState) as (_ & H & _).
    apply (H "data:image/png;base64" "iVBORw0KGgo="); reflexivity.
  - destruct (upload_sends_what_follows_the_comma "no comma here" initialState)
      as (_ & _ & H & _).
    apply H. reflexivity.
Defined.

(** *** Listening to a line *)

Lemma firstInlineData_Some (resp : MediaResponse) (a : string) :
  firstInlineData resp = Some a
  ↔ ∃ c cs ct p ps,
      candidates resp = Some (c :: cs) ∧ content c = Some ct
      ∧ parts ct = Some (p :: ps) ∧ inlineData p = Some {| data := a |}.
Proof.
  unfold firstInlineData. split.
  - destruct (candidates resp) as [[|c cs]|] eqn:Hc; simpl; try done.
    destruct (content c) as [ct|] eqn:Hct; simpl; [|done].
    destruct (parts ct) as [[|p ps]|] eqn:Hps; simpl; try done.
    destruct (inlineData p) as [[d]|] eqn:Hp; simpl; [|done].
    intros [= ->]. by exists c, cs, ct, p, ps.
  - intros (c & cs & ct & p & ps & -> & Hct & Hps & Hp). simpl.
    rewrite Hct. simpl. rewrite Hps. simpl. by rewrite Hp.
Qed.

(** Speech synthesis reads the audio from the first part of the first
    candidate only, and a response that lacks it is no error: the
    operation is rejected exactly when the request itself is, and
    otherwise hands back the audio, or nothing.  The speaker button of a
    drawn line of the assistant issues one such call for the text of the
    line and changes nothing in the view; whatever the call brings back,
    the view stays as it is and nothing leaves the handler. *)
Theorem listening_changes_nothing (c : Config) (d : ReviewData) (i : nat) (line : Line) :
  activePage (app c) = Page.dialogue →
  reviewData (app c) = Some d →
  shownLines (app c) d !! i = Some line →
  speaker line = Some "Xiao Tong" →
  ∃ c1, step c (ClickSpeaker i) = Some c1
    ∧ app c1 = app c
    ∧ issued c c1 = [AwaitSpeech (text line)]
    ∧ ∀ b, ∃ c2, step c1 (Settle (length (inflight c)) b) = Some c2
        ∧ app c2 = app c ∧ unhandled c2 = unhandled c
        ∧ is_fulfilled (generateSpeech b (text line)).1 = is_fulfilled (speechReply b)
        ∧ ∀ resp a, speechReply b = Fulfilled resp →
            ((generateSpeech b (text line)).1 = Fulfilled (Some a)
             ↔ ∃ c0 cs ct p ps,
                 candidates resp = Some (c0 :: cs) ∧ content c0 = Some ct
                 ∧ parts ct = Some (p :: ps) ∧ inlineData p = Some {| data := a |}).
Proof.
  intros Hpage Hd Hl Hsp.
  exists (invoke c (playTTS (text line) (app c))). split.
  { unfold step, handle, onPage. rewrite bool_decide_eq_true_2 by done.
    rewrite Hd. simpl. rewrite Hl. simpl. rewrite bool_decide_eq_true_2 by done.
    simpl. by rewrite pageEffect_same_page. }
  split; [done|]. split; [apply issued_invoke|].
  intros b. unfold step, handle. simpl.
  rewrite lookup_app_r by lia. rewrite Nat.sub_diag. simpl.
  eexists. split; [reflexivity|]. rewrite pageEffect_same_page by done. simpl.
  split; [done|]. split; [apply app_nil_r|]. unfold generateSpeech.
  split; [by destruct (speechReply b)|].
  intros resp a ->. simpl. rewrite <- firstInlineData_Some.
  split; [by intros [= ->]|by intros ->].
Qed.

Lemma listening_changes_nothing_witness :
  ∃ c1, step greetedReview (ClickSpeaker 0) = Some c1
    ∧ app c1 = app greetedReview
    ∧ issued greetedReview c1 = [AwaitSpeech (text (plainLine greetLine None))]
    ∧ ∀ b, ∃ c2, step c1 (Settle (length (inflight greetedReview)) b) = Some c2
        ∧ app c2 = app greetedReview ∧ unhandled c2 = unhandled greetedReview
        ∧ is_fulfilled (generateSpeech b (text (plainLine greetLine None))).1
          = is_fulfilled (speechReply b)
        ∧ ∀ resp a, speechReply b = Fulfilled resp →
            ((generateSpeech b (text (plainLine greetLine None))).1 = Fulfilled (Some a)
             ↔ ∃ c0 cs ct p ps,
                 candidates resp = Some (c0 :: cs) ∧ content c0 = Some ct
                 ∧ parts ct = Some (p :: ps) ∧ inlineData p = Some {| data := a |}).
Proof.
  apply (listening_changes_nothing greetedReview greetedData 0 (plainLine greetLine None)).
  - by vm_compute.
  - by vm_compute.
  - by vm_compute.
  - reflexivity.
Defined.

(** *** What an exercise shows *)

(** The blank of an exercise shows the placeholder until a word is
    chosen under it, and from then on the word chosen last, right or
    wrong; the buttons highlighted under the line are exactly those whose
    word has that text.  The blanks of the other lines keep what they
    show. *)
Theorem blank_shows_the_last_answer (st st' : AppState) (i k : nat) (w : Word) :
  selectedOf (vocabulary st) !! k = Some w →
  word w ≠ "" →
  submitAnswer i k st = Some st' →
  blankText st' i = word w
  ∧ (∀ w', highlighted st' i w' = true ↔ word w' = word w)
  ∧ (∀ j, j ≠ i → blankText st' j = blankText st j ∧ ∀ w', highlighted st' j w' = highlighted st j w')
  ∧ (∀ s j, reviewAnswers s !! j = None → blankText s j = "____").
Proof.
  intros Hw Hne Hs.
  apply submitAnswer_inv in Hs as (d & line & w0 & _ & _ & Hw0 & _ & ->).
  rewrite Hw in Hw0. inversion Hw0; subst w0.
  destruct (answerClick_frame (reviewStep st) d i line w st) as (_ & Ea & _).
  unfold blankText, highlighted. rewrite Ea. split; [|split; [|split]].
  - rewrite lookup_insert_eq. simpl.
    destruct (String.eqb_spec (word w) ""); [done|reflexivity].
  - intros w'. rewrite lookup_insert_eq, bool_decide_eq_true. split; [congruence|].
    by intros ->.
  - intros j Hj. by rewrite lookup_insert_ne.
  - intros s j ->. reflexivity.
Qed.

Lemma blank_shows_the_last_answer_witness :
  blankText answered 0 = word coffee
  ∧ (∀ w', highlighted answered 0 w' = true ↔ word w' = word coffee)
  ∧ (∀ j, j ≠ 0%nat → blankText answered j = blankText (app twoExercises) j
          ∧ ∀ w', highlighted answered j w' = highlighted (app twoExercises) j w')
  ∧ (∀ s j, reviewAnswers s !! j = None → blankText s j = "____").
Proof.
  apply (blank_shows_the_last_answer (app twoExercises) answered 0 4 coffee).
  - by vm_compute.
  - discriminate.
  - by vm_compute.
Defined.

End ViewLaws.
